(** * zkUSD collateral vault ([src/src/zkusd-vault.ts]) — shallow embedding

    The o1js circuit values are modelled as they behave in the contract:
    - [Field] is an element of the Pallas base field, a canonical integer in
      [0, field_modulus), with [add]/[sub]/[mul] reduced modulo the prime;
    - [UInt64] is an integer in [0, 2^64); [add], [sub] and [mul] fail with a
      range-check error when the result leaves that range;
    - every [assert...] of the contract is a failure of the whole method,
      tagged with the error message it carries ([ZkUsdVaultErrors]).
    A method returns the new vault state together with the account updates it
    creates (MINA transfers and calls into the zkUSD token ledger); a
    transaction applies those updates to the ledger, atomically. *)

From Stdlib Require Import ZArith Lia List Bool.
Import ListNotations.
Open Scope Z_scope.

(** ** Errors and the error monad *)

Inductive error :=
| AmountZero               (* ZkUsdVaultErrors.AMOUNT_ZERO *)
| BalanceZero              (* ZkUsdVaultErrors.BALANCE_ZERO *)
| HealthFactorTooLow       (* ZkUsdVaultErrors.HEALTH_FACTOR_TOO_LOW *)
| HealthFactorTooHigh      (* ZkUsdVaultErrors.HEALTH_FACTOR_TOO_HIGH *)
| AmountExceedsDebt        (* ZkUsdVaultErrors.AMOUNT_EXCEEDS_DEBT *)
| InvalidSecret            (* ZkUsdVaultErrors.INVALID_SECRET *)
| InsufficientCollateral   (* ZkUsdVaultErrors.INSUFFICIENT_COLLATERAL *)
| DivisionByZero           (* 'Division by zero' in fieldIntegerDiv *)
| ConstraintFailed         (* an assertion without a message *)
| UInt64RangeCheck         (* UInt64 add/sub/mul leaving [0, 2^64) *)
| PreconditionFailed       (* a [requireEquals] account precondition *)
| InsufficientMina         (* a MINA transfer the sender cannot cover *)
| TokenInsufficientBalance (* a zkUSD burn the owner cannot cover *).

Inductive result (A : Type) :=
| Ok (a : A)
| Err (e : error).
Arguments Ok {A} a.
Arguments Err {A} e.

Definition bind {A B} (m : result A) (k : A -> result B) : result B :=
  match m with
  | Ok a => k a
  | Err e => Err e
  end.

Notation "x <- m ;; k" := (bind m (fun x => k))
  (at level 61, m at next level, right associativity).
Notation "m ;;; k" := (bind m (fun _ : unit => k))
  (at level 61, right associativity).

(** [x.assert...(..., message)]: fail with [e] unless [b]. *)
Definition assert (b : bool) (e : error) : result unit :=
  if b then Ok tt else Err e.

(** ** The Pallas base field of o1js *)

Definition field_modulus : Z :=
  28948022309329048855892746252171976963363056481941560715954676764349967630337.

Definition fadd (x y : Z) : Z := (x + y) mod field_modulus.
Definition fsub (x y : Z) : Z := (x - y) mod field_modulus.
Definition fmul (x y : Z) : Z := (x * y) mod field_modulus.
(** [Field(n)] of a bigint. *)
Definition Field_of (n : Z) : Z := n mod field_modulus.

Definition is_field (x : Z) : Prop := 0 <= x < field_modulus.

(** ** UInt64 *)

Definition UINT64_LIMIT : Z := 2 ^ 64.
Definition MAXINT : Z := UINT64_LIMIT - 1.   (* UInt64.MAXINT() *)

Definition is_u64 (x : Z) : Prop := 0 <= x < UINT64_LIMIT.

Definition u64_check (z : Z) : result Z :=
  if (0 <=? z) && (z <? UINT64_LIMIT) then Ok z else Err UInt64RangeCheck.

Definition u64_add (x y : Z) : result Z := u64_check (x + y).
Definition u64_sub (x y : Z) : result Z := u64_check (x - y).
Definition u64_mul (x y : Z) : result Z := u64_check (x * y).
(** [UInt64.div]: the divisor is asserted non-zero. *)
Definition u64_div (x y : Z) : result Z :=
  if y =? 0 then Err ConstraintFailed else Ok (x / y).

(** [x.assertGreaterThanOrEqual(y)] as the proved circuit checks it:
    [y.assertLessThanOrEqual(x)] range-checks the field difference [x - y]
    to 64 bits. For range-checked operands this is [y <= x]; for a value
    built by [UInt64.fromFields], which adds no range check, it holds
    exactly when [y <= x < y + 2^64] (lemma [hf_gte_iff]). *)
Definition u64_gte (x y : Z) : bool := fsub x y <? UINT64_LIMIT.

(** ** Contract constants (static members of [ZkUsdVault]) *)

Definition COLLATERAL_RATIO : Z := 150.
Definition COLLATERAL_RATIO_PRECISION : Z := 100.
Definition PROTOCOL_FEE_PRECISION : Z := 100.
Definition UNIT_PRECISION : Z := 1000000000.
Definition MIN_HEALTH_FACTOR : Z := 100.

(** ** Fixed-point arithmetic (lines 508–601) *)

(** [fieldIntegerDiv(x, y)]: the quotient is witnessed out of circuit as the
    bigint quotient [x / y], then the remainder [r = x - q*y] is computed in
    the field and the three constraints are asserted. *)
Definition fieldIntegerDiv (x y : Z) : result Z :=
  assert (negb (y =? 0)) DivisionByZero ;;;
  let q := Field_of (x / y) in
  let r := fsub x (fmul q y) in
  assert (0 <=? r) ConstraintFailed ;;;
  assert (r <? y) ConstraintFailed ;;;
  assert (x =? fadd (fmul q y) r) ConstraintFailed ;;;
  Ok q.

(** [safeDiv(numerator, denominator)] *)
Definition safeDiv (numerator denominator : Z) : result Z :=
  let isDenominatorZero := denominator =? 0 in
  let safeDenominator := if isDenominatorZero then 1 else denominator in
  divisionResult <- fieldIntegerDiv numerator safeDenominator ;;
  Ok (if isDenominatorZero then MAXINT else divisionResult).

(** [calculateUsdValue(amount, price)] *)
Definition calculateUsdValue (amount price : Z) : result Z :=
  let numCollateralValue := fmul amount price in
  fieldIntegerDiv numCollateralValue UNIT_PRECISION.

(** [calculateMaxAllowedDebt(collateralValue)] *)
Definition calculateMaxAllowedDebt (collateralValue : Z) : result Z :=
  let numCollateralValue := fmul collateralValue COLLATERAL_RATIO_PRECISION in
  q <- fieldIntegerDiv numCollateralValue COLLATERAL_RATIO ;;
  Ok (fmul q COLLATERAL_RATIO_PRECISION).

(** [calculateHealthFactor(collateralAmount, debtAmount, price)]; the final
    [UInt64.fromFields] adds no range check, so the field value is returned. *)
Definition calculateHealthFactor (collateralAmount debtAmount price : Z)
  : result Z :=
  collateralValue <- calculateUsdValue collateralAmount price ;;
  maxAllowedDebt <- calculateMaxAllowedDebt collateralValue ;;
  safeDiv maxAllowedDebt debtAmount.

(** ** Vault state (the four [@state] fields) and the ledger around it *)

Record Vault := mkVault {
  collateralAmount : Z;
  debtAmount : Z;
  ownershipHash : Z;
  interactionFlag : bool
}.

(** Account addresses; the vault's own account and the hard-coded protocol
    vault ([PROTOCOL_VAULT_ADDRESS]). *)
Definition address := Z.
Definition VAULT_ADDRESS : address := 1.
Definition PROTOCOL_VAULT_ADDRESS : address := 2.

(** The account updates a vault method produces besides its own state:
    [send]/[balance.addInPlace] transfers of MINA, and the calls
    [zkUSD.mint(recipient, amount, this.self)] and [zkUSD.burn(owner, amount)]. *)
Inductive Update :=
| SendMina (from to : address) (amount : Z)
| TokenMint (recipient : address) (amount : Z)
| TokenBurn (owner : address) (amount : Z).

Record World := mkWorld {
  vault : Vault;
  mina : address -> Z;    (* MINA balances; [mina VAULT_ADDRESS] is [this.account.balance] *)
  zkusd : address -> Z    (* zkUSD token balances *)
}.

Definition upd (f : address -> Z) (a : address) (v : Z) : address -> Z :=
  fun b => if b =? a then v else f b.

Definition set_vault (w : World) (v : Vault) : World :=
  mkWorld v (mina w) (zkusd w).

Definition set_collateral (v : Vault) (c : Z) : Vault :=
  mkVault c (debtAmount v) (ownershipHash v) (interactionFlag v).
Definition set_debt (v : Vault) (d : Z) : Vault :=
  mkVault (collateralAmount v) d (ownershipHash v) (interactionFlag v).
Definition set_flag (v : Vault) (b : bool) : Vault :=
  mkVault (collateralAmount v) (debtAmount v) (ownershipHash v) b.

(** [assertInteractionFlag()] (lines 488–493): returns the new state and [true]. *)
Definition assertInteractionFlag (w : World) : result (Vault * bool) :=
  let s := vault w in
  assert (Bool.eqb (interactionFlag s) true) PreconditionFailed ;;;
  Ok (set_flag s false, true).

(** A MINA transfer, applied by the ledger: the sender must cover it. *)
Definition send_mina (w : World) (from to : address) (amount : Z) : result World :=
  assert (amount <=? mina w from) InsufficientMina ;;;
  let m1 := upd (mina w) from (mina w from - amount) in
  Ok (mkWorld (vault w) (upd m1 to (m1 to + amount)) (zkusd w)).

(** Modelled from the spec: [ZkUsdToken.mint] (zkusd-token.ts, not in the
    sources). The token ledger confirms that the call comes from the vault
    through the vault's [assertInteractionFlag], which requires the flag and
    resets it in the same transaction (spec sections 3 and 4.2; the vault's
    comments at lines 348 and 485), then credits the recipient ("fungible
    balance accounting"). The vault's own account update, which sets the
    flag, is applied before this child call. *)
Definition token_mint (w : World) (recipient : address) (amount : Z) : result World :=
  r <- assertInteractionFlag w ;;
  let (v, _) := r in
  Ok (mkWorld v (mina w) (upd (zkusd w) recipient (zkusd w recipient + amount))).

(** Modelled from the spec: [ZkUsdToken.burn] (zkusd-token.ts, not in the
    sources): the owner's balance is debited, and the burn fails when the
    owner holds less than [amount]. *)
Definition token_burn (w : World) (owner : address) (amount : Z) : result World :=
  assert (amount <=? zkusd w owner) TokenInsufficientBalance ;;;
  Ok (mkWorld (vault w) (mina w)
        (upd (zkusd w) owner (zkusd w owner - amount))).

Definition apply_update (w : World) (u : Update) : result World :=
  match u with
  | SendMina from to amount => send_mina w from to amount
  | TokenMint recipient amount => token_mint w recipient amount
  | TokenBurn owner amount => token_burn w owner amount
  end.

Fixpoint apply_updates (w : World) (us : list Update) : result World :=
  match us with
  | [] => Ok w
  | u :: us' => w' <- apply_update w u ;; apply_updates w' us'
  end.

(** A vault method: the new vault state and the account updates created. *)
Definition MethodResult := result (Vault * list Update).

(** A transaction running one method: all or nothing. *)
Definition transact (w : World) (m : MethodResult) : result World :=
  r <- m ;;
  let (v', us) := r in
  apply_updates (set_vault w v') us.

(** ** The vault methods

    [hash] is [Poseidon.hash(secret.toFields())]; [sender] is
    [this.sender]; [price] is the value of [oracle.getPrice()];
    [currentProtocolFee] is the value of [protocolVault.getProtocolFee()]. *)

Section Methods.

Variable hash : Z -> Z.

(** [depositCollateral(amount, secret)] (lines 161–199) *)
Definition depositCollateral (sender : address) (w : World) (amount secret : Z)
  : MethodResult :=
  let s := vault w in
  assert (0 <? amount) AmountZero ;;;
  assert (ownershipHash s =? hash secret) InvalidSecret ;;;
  newCollateral <- u64_add (collateralAmount s) amount ;;
  Ok (set_collateral s newCollateral, [SendMina sender VAULT_ADDRESS amount]).

(** [redeemCollateral(amount, secret)] (lines 206–295) *)
Definition redeemCollateral (sender : address) (price currentProtocolFee : Z)
  (w : World) (amount secret : Z) : MethodResult :=
  let s := vault w in
  let balance := mina w VAULT_ADDRESS in
  assert (0 <? balance) BalanceZero ;;;
  assert (ownershipHash s =? hash secret) InvalidSecret ;;;
  assert (amount <=? collateralAmount s) InsufficientCollateral ;;;
  remainingCollateral <- u64_sub (collateralAmount s) amount ;;
  healthFactor <- calculateHealthFactor remainingCollateral (debtAmount s) price ;;
  assert (u64_gte healthFactor MIN_HEALTH_FACTOR) HealthFactorTooLow ;;;
  stakingRewards <- u64_sub balance (collateralAmount s) ;;
  feeTimes <- u64_mul stakingRewards currentProtocolFee ;;
  protocolFee <- u64_div feeTimes PROTOCOL_FEE_PRECISION ;;
  stakingRewardsDividend <- u64_sub stakingRewards protocolFee ;;
  payout <- u64_add amount stakingRewardsDividend ;;
  Ok (set_collateral s remainingCollateral,
      [SendMina VAULT_ADDRESS PROTOCOL_VAULT_ADDRESS protocolFee;
       SendMina VAULT_ADDRESS sender payout]).

(** [mintZkUsd(recipient, amount, secret)] (lines 303–361) *)
Definition mintZkUsd (price : Z) (w : World) (recipient : address) (amount secret : Z)
  : MethodResult :=
  let s := vault w in
  assert (0 <? amount) AmountZero ;;;
  assert (ownershipHash s =? hash secret) InvalidSecret ;;;
  newDebt <- u64_add (debtAmount s) amount ;;
  healthFactor <- calculateHealthFactor (collateralAmount s) newDebt price ;;
  assert (u64_gte healthFactor MIN_HEALTH_FACTOR) HealthFactorTooLow ;;;
  newDebt' <- u64_add (debtAmount s) amount ;;
  Ok (set_flag (set_debt s newDebt') true, [TokenMint recipient amount]).

(** [burnZkUsd(amount, secret)] (lines 368–408) *)
Definition burnZkUsd (sender : address) (w : World) (amount secret : Z)
  : MethodResult :=
  let s := vault w in
  assert (0 <? amount) AmountZero ;;;
  assert (ownershipHash s =? hash secret) InvalidSecret ;;;
  assert (amount <=? debtAmount s) AmountExceedsDebt ;;;
  newDebt <- u64_sub (debtAmount s) amount ;;
  Ok (set_debt s newDebt, [TokenBurn sender amount]).

(** [deploy({ secret })] (lines 130–154): the initial vault state. Both
    amounts are set to 0, the commitment to the hash of the secret; the
    interaction flag keeps its initial value [Bool(false)]. *)
Definition deploy (secret : Z) : Vault :=
  mkVault 0 0 (hash secret) false.

End Methods.

(** [liquidate()] (lines 414–465): no secret. The check
    [healthFactor.assertLessThanOrEqual(100)] range-checks [100 - hf] in
    the field; it is written as the integer comparison, which agrees with
    it for every health factor of UInt64 collateral, debt and price (lemma
    [liquidate_check_agrees]). *)
Definition liquidate (sender : address) (price : Z) (w : World) : MethodResult :=
  let s := vault w in
  healthFactor <- calculateHealthFactor (collateralAmount s) (debtAmount s) price ;;
  assert (healthFactor <=? MIN_HEALTH_FACTOR) HealthFactorTooHigh ;;;
  Ok (set_debt (set_collateral s 0) 0,
      [SendMina VAULT_ADDRESS sender (collateralAmount s);
       TokenBurn sender (debtAmount s)]).

(** A method result with the vault's interaction flag overwritten by [b]. *)
Definition flagless (b : bool) (r : MethodResult) : MethodResult :=
  match r with
  | Ok (v, us) => Ok (set_flag v b, us)
  | Err e => Err e
  end.

(** [getHealthFactor()] (lines 471–482): the health factor of the stored
    collateral and debt at the oracle price. *)
Definition getHealthFactor (price : Z) (w : World) : result Z :=
  calculateHealthFactor (collateralAmount (vault w)) (debtAmount (vault w)) price.

(** The net amount of zkUSD a list of account updates asks the token ledger
    to create: minted amounts minus burned amounts. *)
Fixpoint token_delta (us : list Update) : Z :=
  match us with
  | [] => 0
  | TokenMint _ amount :: us' => amount + token_delta us'
  | TokenBurn _ amount :: us' => - amount + token_delta us'
  | SendMina _ _ _ :: us' => token_delta us'
  end.

(** The vault's MINA balance covers the collateral it records. *)
(** Whether a list of account updates calls the token ledger's mint. *)
Fixpoint mints (us : list Update) : bool :=
  match us with
  | [] => false
  | TokenMint _ _ :: _ => true
  | _ :: us' => mints us'
  end.

Definition collateral_backed (w : World) : Prop :=
  collateralAmount (vault w) <= mina w VAULT_ADDRESS.

(** A concrete ledger: a vault holding 1.5 MINA of collateral and 1 zkUSD of
    debt under commitment 5, whose account holds 2 MINA (0.5 MINA of
    staking rewards); account 10 holds 5 MINA and the 1 zkUSD minted. *)
Definition demo_world : World :=
  mkWorld (mkVault 1500000000 1000000000 5 false)
    (fun a => if a =? VAULT_ADDRESS then 2000000000
              else if a =? 10 then 5000000000 else 0)
    (fun a => if a =? 10 then 1000000000 else 0).

(** The world a successful transaction leaves. *)
Definition result_world (r : result World) : World :=
  match r with Ok w => w | Err _ => demo_world end.

Example hf_1_1_1 : calculateHealthFactor 1000000000 1000000000 1000000000 = Ok 66.
Proof. vm_compute. reflexivity. Qed.
Example hf_15 : calculateHealthFactor 1500000000 1000000000 1000000000 = Ok 100.
Proof. vm_compute. reflexivity. Qed.
Example hf_zero : calculateHealthFactor 1000000000 0 1000000000 = Ok MAXINT.
Proof. vm_compute. reflexivity. Qed.
Example hf_scale : calculateHealthFactor 1 1 1000000000 = Ok 0
  /\ calculateHealthFactor 2 2 1000000000 = Ok 50.
Proof. vm_compute. split; reflexivity. Qed.

(** ** Fixed-point arithmetic: the division primitives *)

Lemma fmul_field (a b : Z) : is_field (fmul a b).
Proof. unfold fmul, is_field, field_modulus. apply Z.mod_pos_bound. reflexivity. Qed.

Lemma u64_lt_field (x : Z) : is_u64 x -> x < field_modulus.
Proof. unfold is_u64, UINT64_LIMIT, field_modulus. lia. Qed.

(** On field elements with a non-zero divisor, [fieldIntegerDiv] never fails
    and returns the integer quotient. *)
Lemma fieldIntegerDiv_ok (x y : Z) :
  is_field x -> 0 < y < field_modulus -> fieldIntegerDiv x y = Ok (x / y).
Proof.
  intros [Hx0 Hx1] [Hy0 Hy1].
  unfold fieldIntegerDiv, Field_of, fsub, fmul, fadd.
  assert (Hq0 : 0 <= x / y) by (apply Z.div_pos; lia).
  assert (Hqy : y * (x / y) <= x) by (apply Z.mul_div_le; lia).
  assert (Hr : 0 <= x mod y < y) by (apply Z.mod_pos_bound; lia).
  assert (Hdm : x = y * (x / y) + x mod y) by (apply Z.div_mod; lia).
  rewrite (Z.mod_small (x / y)) by nia.
  rewrite (Z.mod_small (x / y * y)) by nia.
  replace (x - x / y * y) with (x mod y) by lia.
  rewrite (Z.mod_small (x mod y)) by lia.
  replace (x / y * y + x mod y) with x by lia.
  rewrite (Z.mod_small x field_modulus) by lia.
  destruct (Z.eqb_spec y 0); [lia|]. simpl.
  destruct (Z.leb_spec 0 (x mod y)); [|lia]. simpl.
  destruct (Z.ltb_spec (x mod y) y); [|lia]. simpl.
  rewrite Z.eqb_refl. reflexivity.
Qed.

Lemma safeDiv_ok (n d : Z) :
  is_field n -> 0 <= d < field_modulus ->
  safeDiv n d = Ok (if d =? 0 then MAXINT else n / d).
Proof.
  intros Hn Hd. unfold safeDiv.
  destruct (Z.eqb_spec d 0) as [->|Hd0].
  - rewrite fieldIntegerDiv_ok by (exact Hn || (unfold field_modulus; lia)). reflexivity.
  - rewrite fieldIntegerDiv_ok by (exact Hn || lia). reflexivity.
Qed.

Lemma calculateUsdValue_ok (c p : Z) :
  calculateUsdValue c p = Ok (fmul c p / UNIT_PRECISION).
Proof.
  unfold calculateUsdValue.
  apply fieldIntegerDiv_ok; [apply fmul_field | unfold UNIT_PRECISION, field_modulus; lia].
Qed.

Lemma calculateMaxAllowedDebt_ok (v : Z) :
  calculateMaxAllowedDebt v
  = Ok (fmul (fmul v COLLATERAL_RATIO_PRECISION / COLLATERAL_RATIO)
             COLLATERAL_RATIO_PRECISION).
Proof.
  unfold calculateMaxAllowedDebt.
  rewrite fieldIntegerDiv_ok;
    [reflexivity | apply fmul_field | unfold COLLATERAL_RATIO, field_modulus; lia].
Qed.

(** The health factor is [safeDiv] of the field computation of the maximal
    allowed debt. *)
Lemma calculateHealthFactor_unfold (c d p : Z) :
  calculateHealthFactor c d p
  = safeDiv (fmul (fmul (fmul c p / UNIT_PRECISION) COLLATERAL_RATIO_PRECISION
                   / COLLATERAL_RATIO) COLLATERAL_RATIO_PRECISION) d.
Proof.
  unfold calculateHealthFactor. rewrite calculateUsdValue_ok. simpl.
  rewrite calculateMaxAllowedDebt_ok. reflexivity.
Qed.

(** For UInt64 inputs no field operation of the health factor wraps around. *)
Lemma maxAllowedDebt_no_wrap (c p : Z) :
  is_u64 c -> is_u64 p ->
  fmul (fmul (fmul c p / UNIT_PRECISION) COLLATERAL_RATIO_PRECISION
        / COLLATERAL_RATIO) COLLATERAL_RATIO_PRECISION
  = c * p / UNIT_PRECISION * 100 / 150 * 100.
Proof.
  unfold is_u64, UINT64_LIMIT, fmul, UNIT_PRECISION,
    COLLATERAL_RATIO_PRECISION, COLLATERAL_RATIO.
  intros Hc Hp.
  assert (Hcp : 0 <= c * p < 2 ^ 128) by nia.
  rewrite (Z.mod_small (c * p)) by (unfold field_modulus; lia).
  set (v := c * p / 1000000000).
  assert (Hv : 0 <= v <= c * p).
  { subst v. split; [apply Z.div_pos; lia | apply Z.div_le_upper_bound; lia]. }
  rewrite (Z.mod_small (v * 100)) by (unfold field_modulus; lia).
  set (q := v * 100 / 150).
  assert (Hq : 0 <= q <= v * 100).
  { subst q. split; [apply Z.div_pos; lia | apply Z.div_le_upper_bound; lia]. }
  rewrite Z.mod_small by (unfold field_modulus; lia).
  reflexivity.
Qed.

(** Scaling collateral by [k] scales the maximal allowed debt by at least [k]. *)
Lemma maxAllowedDebt_superlinear (a k : Z) :
  0 <= a -> 1 <= k ->
  k * (a / UNIT_PRECISION * 100 / 150 * 100)
  <= k * a / UNIT_PRECISION * 100 / 150 * 100.
Proof.
  unfold UNIT_PRECISION. intros Ha Hk.
  assert (H1 : k * (a / 1000000000) <= k * a / 1000000000)
    by (apply Z.div_mul_le; lia).
  assert (Hb : 0 <= a / 1000000000) by (apply Z.div_pos; lia).
  assert (H2 : k * (a / 1000000000 * 100 / 150)
               <= k * (a / 1000000000 * 100) / 150)
    by (apply Z.div_mul_le; lia).
  assert (H3 : k * (a / 1000000000 * 100) / 150
               <= k * a / 1000000000 * 100 / 150)
    by (apply Z.div_le_mono; lia).
  nia.
Qed.

(** ** Claims about the health factor and the division primitive *)

(** C1: for UInt64 collateral, debt and price, [calculateHealthFactor] is
    [safeDiv(floor(floor(collateral * price / 1e9) * 100 / 150) * 100, debt)],
    i.e. the maximal allowed debt divided by the debt, or [MAXINT] for zero
    debt; at price 1e9 it gives 66 for 1e9/1e9, 133 for 2e9/1e9 and 100 for
    1.5e9/1e9. *)
Theorem calculateHealthFactor_spec (c d p : Z) :
  is_u64 c -> is_u64 d -> is_u64 p ->
  calculateHealthFactor c d p = safeDiv (c * p / UNIT_PRECISION * 100 / 150 * 100) d
  /\ safeDiv (c * p / UNIT_PRECISION * 100 / 150 * 100) d
     = Ok (if d =? 0 then MAXINT else c * p / UNIT_PRECISION * 100 / 150 * 100 / d)
  /\ calculateHealthFactor 1000000000 1000000000 1000000000 = Ok 66
  /\ calculateHealthFactor 2000000000 1000000000 1000000000 = Ok 133
  /\ calculateHealthFactor 1500000000 1000000000 1000000000 = Ok 100.
Proof.
  intros Hc Hd Hp.
  rewrite calculateHealthFactor_unfold, maxAllowedDebt_no_wrap by assumption.
  split; [reflexivity|].
  split.
  - apply safeDiv_ok.
    + rewrite <- (maxAllowedDebt_no_wrap c p Hc Hp). apply fmul_field.
    + pose proof (u64_lt_field d Hd). unfold is_u64 in Hd. lia.
  - vm_compute. repeat split.
Qed.

Lemma calculateHealthFactor_spec_witness :
  is_u64 3000000000 /\ is_u64 1000000000 /\ is_u64 1000000000 /\
  calculateHealthFactor 3000000000 1000000000 1000000000
  = safeDiv (3000000000 * 1000000000 / UNIT_PRECISION * 100 / 150 * 100) 1000000000.
Proof.
  assert (H : is_u64 3000000000 /\ is_u64 1000000000)
    by (unfold is_u64, UINT64_LIMIT; lia).
  destruct H as [H3 H1].
  split; [exact H3|]. split; [exact H1|]. split; [exact H1|].
  exact (proj1 (calculateHealthFactor_spec 3000000000 1000000000 1000000000 H3 H1 H1)).
Defined.

(** C4: with zero debt the health factor is [MAXINT] (2^64 - 1) for every
    collateral and price, and the computation is total: for every debt that
    is a UInt64 it yields a value and never fails with [DivisionByZero]. *)
Theorem calculateHealthFactor_total (c d p : Z) :
  is_u64 d ->
  (exists hf, calculateHealthFactor c d p = Ok hf)
  /\ calculateHealthFactor c d p <> Err DivisionByZero
  /\ calculateHealthFactor c 0 p = Ok MAXINT
  /\ MAXINT = 2 ^ 64 - 1.
Proof.
  intros Hd.
  assert (Hd' : 0 <= d < field_modulus)
    by (pose proof (u64_lt_field d Hd); unfold is_u64 in Hd; lia).
  rewrite !calculateHealthFactor_unfold.
  rewrite !safeDiv_ok by (apply fmul_field || (unfold field_modulus; lia) || exact Hd').
  split; [eexists; reflexivity|].
  split; [discriminate|].
  split; reflexivity.
Qed.

Lemma calculateHealthFactor_total_witness :
  is_u64 0 /\ calculateHealthFactor 1000000000 0 1000000000 <> Err DivisionByZero.
Proof.
  assert (H0 : is_u64 0) by (unfold is_u64, UINT64_LIMIT; lia).
  split; [exact H0|].
  exact (proj1 (proj2 (calculateHealthFactor_total 1000000000 0 1000000000 H0))).
Defined.

(** C5 refuted: scaling collateral and debt by the same positive integer
    does not leave the health factor unchanged; at price 1e9, collateral 1 and debt 1 give health factor 0,
    while collateral 2 and debt 2 (k = 2) give 50. *)
Lemma scale_invariance_counterexample :
  ~ (forall c d p k, is_u64 c -> is_u64 d -> is_u64 p -> 0 < k ->
       is_u64 (k * c) -> is_u64 (k * d) ->
       calculateHealthFactor c d p = calculateHealthFactor (k * c) (k * d) p).
Proof.
  intros H.
  assert (Hu : forall x, 0 <= x <= 2 -> is_u64 x)
    by (intros x Hx; unfold is_u64, UINT64_LIMIT; lia).
  assert (Hp : is_u64 1000000000) by (unfold is_u64, UINT64_LIMIT; lia).
  specialize (H 1 1 1000000000 2 (Hu 1 ltac:(lia)) (Hu 1 ltac:(lia)) Hp
                ltac:(lia) (Hu 2 ltac:(lia)) (Hu 2 ltac:(lia))).
  vm_compute in H. discriminate H.
Qed.

(** C5 (amended): scaling collateral and debt by the same positive integer
    [k] never lowers the health factor; the staged flooring can raise it. *)
Theorem calculateHealthFactor_scale_monotone (c d p k : Z) :
  is_u64 c -> is_u64 d -> is_u64 p -> 1 <= k ->
  is_u64 (k * c) -> is_u64 (k * d) ->
  exists h1 h2, calculateHealthFactor c d p = Ok h1
    /\ calculateHealthFactor (k * c) (k * d) p = Ok h2
    /\ h1 <= h2.
Proof.
  intros Hc Hd Hp Hk Hkc Hkd.
  rewrite !calculateHealthFactor_unfold.
  rewrite (maxAllowedDebt_no_wrap c p Hc Hp), (maxAllowedDebt_no_wrap (k * c) p Hkc Hp).
  assert (HN1 : is_field (c * p / UNIT_PRECISION * 100 / 150 * 100))
    by (rewrite <- (maxAllowedDebt_no_wrap c p Hc Hp); apply fmul_field).
  assert (HN2 : is_field (k * c * p / UNIT_PRECISION * 100 / 150 * 100))
    by (rewrite <- (maxAllowedDebt_no_wrap (k * c) p Hkc Hp); apply fmul_field).
  pose proof (u64_lt_field d Hd). pose proof (u64_lt_field (k * d) Hkd).
  unfold is_u64 in Hc, Hd, Hp, Hkc, Hkd.
  rewrite (safeDiv_ok _ d HN1) by lia.
  rewrite (safeDiv_ok _ (k * d) HN2) by lia.
  do 2 eexists. split; [reflexivity|]. split; [reflexivity|].
  destruct (Z.eqb_spec d 0) as [->|Hd0].
  - rewrite Z.mul_0_r. simpl. lia.
  - destruct (Z.eqb_spec (k * d) 0) as [Hkd0|_]; [nia|].
    set (N := c * p / UNIT_PRECISION * 100 / 150 * 100).
    assert (HN : k * N <= k * c * p / UNIT_PRECISION * 100 / 150 * 100).
    { subst N. rewrite <- Z.mul_assoc. apply maxAllowedDebt_superlinear; nia. }
    rewrite <- (Z.div_mul_cancel_l N d k) by lia.
    apply Z.div_le_mono; [nia | exact HN].
Qed.

Lemma calculateHealthFactor_scale_monotone_witness :
  exists h1 h2, calculateHealthFactor 1 1 1000000000 = Ok h1
    /\ calculateHealthFactor (2 * 1) (2 * 1) 1000000000 = Ok h2
    /\ h1 <= h2.
Proof.
  assert (Hu : forall x, 0 <= x <= 1000000000 -> is_u64 x)
    by (intros x Hx; unfold is_u64, UINT64_LIMIT; lia).
  exact (calculateHealthFactor_scale_monotone 1 1 1000000000 2
           (Hu 1 ltac:(lia)) (Hu 1 ltac:(lia)) (Hu 1000000000 ltac:(lia))
           ltac:(lia) (Hu 2 ltac:(lia)) (Hu 2 ltac:(lia))).
Defined.

(** C7: for field elements [x] and [y], [fieldIntegerDiv x y] fails with
    [DivisionByZero] when [y = 0]; otherwise it returns [q = floor(x / y)],
    and for the remainder [r = x - q*y] it computes, the asserted constraints
    [x = q*y + r] (in the field and over the integers) and [0 <= r < y]
    hold. *)
Theorem fieldIntegerDiv_spec (x y : Z) :
  is_field x -> is_field y ->
  (y = 0 -> fieldIntegerDiv x y = Err DivisionByZero)
  /\ (y <> 0 ->
      let q := x / y in
      let r := fsub x (fmul q y) in
      fieldIntegerDiv x y = Ok q
      /\ x = fadd (fmul q y) r
      /\ x = q * y + r
      /\ 0 <= r < y).
Proof.
  intros Hx Hy. split.
  - intros ->. reflexivity.
  - intros Hy0 q r.
    destruct Hx as [Hx0 Hx1]. destruct Hy as [Hy0' Hy1].
    assert (Hypos : 0 < y) by lia.
    assert (Hq0 : 0 <= q) by (apply Z.div_pos; lia).
    assert (Hqy : y * q <= x) by (apply Z.mul_div_le; lia).
    assert (Hm : 0 <= x mod y < y) by (apply Z.mod_pos_bound; lia).
    assert (Hdm : x = y * q + x mod y) by (apply Z.div_mod; lia).
    assert (Hr : r = x mod y).
    { subst r. unfold fsub, fmul.
      rewrite (Z.mod_small (q * y)) by nia.
      rewrite Z.mod_small by lia. lia. }
    split; [apply fieldIntegerDiv_ok; unfold is_field; lia|].
    split; [|split; lia].
    unfold fadd, fmul. rewrite (Z.mod_small (q * y)) by nia.
    rewrite Z.mod_small by lia. lia.
Qed.

Lemma fieldIntegerDiv_spec_witness :
  is_field 7 /\ is_field 2 /\ fieldIntegerDiv 7 2 = Ok 3.
Proof.
  assert (H7 : is_field 7) by (unfold is_field, field_modulus; lia).
  assert (H2 : is_field 2) by (unfold is_field, field_modulus; lia).
  split; [exact H7|]. split; [exact H2|].
  exact (proj1 (proj2 (fieldIntegerDiv_spec 7 2 H7 H2) ltac:(discriminate))).
Defined.

(** ** Vault methods *)

(** A failing method fails its transaction: no part of the world changes. *)
Lemma transact_err (w : World) (e : error) : transact w (Err e) = Err e.
Proof. reflexivity. Qed.

Lemma u64_check_ok (z : Z) : is_u64 z -> u64_check z = Ok z.
Proof.
  unfold is_u64, u64_check. intros [H0 H1].
  apply Z.leb_le in H0. apply Z.ltb_lt in H1. rewrite H0, H1. reflexivity.
Qed.

Lemma u64_check_inv (z v : Z) : u64_check z = Ok v -> v = z /\ is_u64 z.
Proof.
  unfold u64_check, is_u64.
  destruct (Z.leb_spec 0 z), (Z.ltb_spec z UINT64_LIMIT); simpl;
    intros Hok; try discriminate; inversion Hok; split; [reflexivity | lia].
Qed.

(** The UInt64 [>=] check against 100 on a field element. *)
Lemma hf_gte_iff (hf : Z) : 0 <= hf < field_modulus ->
  u64_gte hf MIN_HEALTH_FACTOR = true
  <-> MIN_HEALTH_FACTOR <= hf < UINT64_LIMIT + MIN_HEALTH_FACTOR.
Proof.
  intros Hf. unfold u64_gte, fsub, MIN_HEALTH_FACTOR. rewrite Z.ltb_lt.
  destruct (Z.le_gt_cases 100 hf).
  - rewrite Z.mod_small by lia. lia.
  - rewrite <- (Z.mod_add (hf - 100) 1 field_modulus) by (unfold field_modulus; lia).
    unfold field_modulus, UINT64_LIMIT in *.
    rewrite Z.mod_small by lia. lia.
Qed.

Lemma fieldIntegerDiv_field (x y q : Z) : fieldIntegerDiv x y = Ok q ->
  0 <= q < field_modulus.
Proof.
  unfold fieldIntegerDiv, assert, Field_of. intros H.
  repeat (match type of H with context [if ?b then _ else _] => destruct b end;
          cbn [bind] in H; try discriminate).
  injection H as <-. apply Z.mod_pos_bound. unfold field_modulus. lia.
Qed.

(** A health factor is a field element. *)
Lemma hf_is_field (c d p hf : Z) : calculateHealthFactor c d p = Ok hf ->
  0 <= hf < field_modulus.
Proof.
  unfold calculateHealthFactor, safeDiv.
  destruct (calculateUsdValue c p) as [cv|e]; cbn [bind]; [|discriminate].
  destruct (calculateMaxAllowedDebt cv) as [m|e]; cbn [bind]; [|discriminate].
  destruct (fieldIntegerDiv m (if d =? 0 then 1 else d)) as [q|e] eqn:E;
    cbn [bind]; [|discriminate].
  intros H. injection H as <-. destruct (d =? 0).
  - unfold MAXINT, UINT64_LIMIT, field_modulus. lia.
  - exact (fieldIntegerDiv_field _ _ _ E).
Qed.

Lemma hf_gte_low (c d p hf : Z) : calculateHealthFactor c d p = Ok hf ->
  hf < MIN_HEALTH_FACTOR -> u64_gte hf MIN_HEALTH_FACTOR = false.
Proof.
  intros H Hlt. destruct (u64_gte hf MIN_HEALTH_FACTOR) eqn:E; [|reflexivity].
  apply hf_gte_iff in E; [lia | exact (hf_is_field _ _ _ _ H)].
Qed.


Lemma hf_gte_ok (c d p hf : Z) : calculateHealthFactor c d p = Ok hf ->
  MIN_HEALTH_FACTOR <= hf < UINT64_LIMIT + MIN_HEALTH_FACTOR ->
  u64_gte hf MIN_HEALTH_FACTOR = true.
Proof.
  intros H Hr. apply hf_gte_iff; [exact (hf_is_field _ _ _ _ H) | exact Hr].
Qed.

(** Case analysis on the boolean guards of a method. *)
Ltac case_guard :=
  match goal with
  | |- context [if ?b then _ else _] => destruct b eqn:?
  | H : context [if ?b then _ else _] |- _ => destruct b eqn:?
  end.

(** C8 (amended): [depositCollateral] rejects with [AmountZero] when the
    amount is 0, and with [InvalidSecret] when the amount is positive but the
    secret does not hash to the ownership commitment; with a positive amount,
    the right secret and a collateral sum that fits in a UInt64 it sets the
    collateral to [collateralAmount + amount] and leaves the debt, the
    commitment and the interaction flag unchanged, its only other effect being
    the transfer of [amount] from the caller to the vault; a rejection changes
    nothing. *)
Theorem depositCollateral_spec (hash : Z -> Z) (sender : address) (w : World)
  (amount secret : Z) :
  let s := vault w in
  (amount = 0 ->
     depositCollateral hash sender w amount secret = Err AmountZero)
  /\ (0 < amount -> ownershipHash s <> hash secret ->
     depositCollateral hash sender w amount secret = Err InvalidSecret)
  /\ (0 < amount -> ownershipHash s = hash secret ->
      is_u64 (collateralAmount s + amount) ->
      depositCollateral hash sender w amount secret
      = Ok (mkVault (collateralAmount s + amount) (debtAmount s)
                    (ownershipHash s) (interactionFlag s),
            [SendMina sender VAULT_ADDRESS amount]))
  /\ (forall v us, depositCollateral hash sender w amount secret = Ok (v, us) ->
      0 < amount /\ ownershipHash s = hash secret
      /\ v = mkVault (collateralAmount s + amount) (debtAmount s)
                     (ownershipHash s) (interactionFlag s)
      /\ us = [SendMina sender VAULT_ADDRESS amount])
  /\ (forall e, depositCollateral hash sender w amount secret = Err e ->
      transact w (depositCollateral hash sender w amount secret) = Err e).
Proof.
  intros s. unfold depositCollateral, u64_add, assert. fold s.
  split; [intros ->; reflexivity|].
  split.
  { intros Ha Hs. apply Z.ltb_lt in Ha. rewrite Ha. simpl.
    apply Z.eqb_neq in Hs. rewrite Hs. reflexivity. }
  split.
  { intros Ha Hs Hu. apply Z.ltb_lt in Ha. rewrite Ha. simpl.
    replace (ownershipHash s =? hash secret) with true
      by (symmetry; apply Z.eqb_eq; exact Hs).
    simpl. rewrite u64_check_ok by exact Hu. reflexivity. }
  split.
  { intros v us H. simpl in H.
    repeat case_guard; simpl in H; try discriminate.
    destruct (u64_check (collateralAmount s + amount)) eqn:Hc; simpl in H;
      [|discriminate].
    apply u64_check_inv in Hc as [-> _]. inversion H; subst.
    apply Z.ltb_lt in Heqb. apply Z.eqb_eq in Heqb0. auto. }
  intros e H. rewrite H. reflexivity.
Qed.

Lemma depositCollateral_spec_witness :
  depositCollateral (fun x => x) 10
    (mkWorld (mkVault 100 0 5 false) (fun _ => 0) (fun _ => 0)) 7 5
  = Ok (mkVault 107 0 5 false, [SendMina 10 VAULT_ADDRESS 7]).
Proof.
  exact (proj1 (proj2 (proj2 (depositCollateral_spec (fun x => x) 10
           (mkWorld (mkVault 100 0 5 false) (fun _ => 0) (fun _ => 0)) 7 5)))
           ltac:(lia) eq_refl ltac:(unfold is_u64, UINT64_LIMIT; simpl; lia)).
Defined.

(** C8 refuted as stated: with amount 0 and a wrong secret the deposit is
    rejected with [AmountZero], not [InvalidSecret]: the amount is checked
    first. *)
Lemma depositCollateral_check_order :
  ownershipHash (mkVault 0 0 5 false) <> (fun x : Z => x) 7
  /\ depositCollateral (fun x => x) 10
       (mkWorld (mkVault 0 0 5 false) (fun _ => 0) (fun _ => 0)) 0 7
     = Err AmountZero
  /\ depositCollateral (fun x => x) 10
       (mkWorld (mkVault 0 0 5 false) (fun _ => 0) (fun _ => 0)) 0 7
     <> Err InvalidSecret.
Proof. split; [discriminate|]. split; [reflexivity | discriminate]. Qed.

Lemma mintZkUsd_inv (hash : Z -> Z) (price : Z) (w : World) (recipient : address)
  (amount secret : Z) (v : Vault) (us : list Update) :
  let s := vault w in
  mintZkUsd hash price w recipient amount secret = Ok (v, us) ->
  0 < amount /\ ownershipHash s = hash secret /\ is_u64 (debtAmount s + amount)
  /\ (exists hf, calculateHealthFactor (collateralAmount s) (debtAmount s + amount) price
                 = Ok hf /\ MIN_HEALTH_FACTOR <= hf < UINT64_LIMIT + MIN_HEALTH_FACTOR)
  /\ v = mkVault (collateralAmount s) (debtAmount s + amount) (ownershipHash s) true
  /\ us = [TokenMint recipient amount].
Proof.
  intros s H. unfold mintZkUsd, assert, u64_add in H. fold s in H.
  repeat case_guard; simpl in H; try discriminate.
  destruct (u64_check (debtAmount s + amount)) as [nd|] eqn:Hc; simpl in H;
    [|discriminate].
  apply u64_check_inv in Hc as [-> Hu].
  destruct (calculateHealthFactor (collateralAmount s) (debtAmount s + amount) price)
    as [hf|] eqn:Hhf; simpl in H; [|discriminate].
  destruct (u64_gte hf MIN_HEALTH_FACTOR) eqn:Hle; simpl in H; [|discriminate].
  simpl in H. inversion H; subst.
  apply Z.ltb_lt in Heqb. apply Z.eqb_eq in Heqb0.
  apply hf_gte_iff in Hle; [|exact (hf_is_field _ _ _ _ Hhf)].
  split; [exact Heqb|]. split; [exact Heqb0|]. split; [exact Hu|].
  split; [exists hf; split; [first [exact Hhf | reflexivity] | lia]|]. split; reflexivity.
Qed.

(** C2 (amended): [mintZkUsd] succeeds only when the amount is positive, the
    secret hashes to the commitment, [debtAmount + amount] fits in a UInt64
    and the health factor computed with [debtAmount + amount] as the debt is
    at least 100; on success the debt becomes [debtAmount + amount], the
    interaction flag becomes true and the recipient's mint is requested.
    When that hypothetical health factor is below 100 the call is rejected
    and nothing changes; the error is [HealthFactorTooLow] whenever the
    earlier checks (positive amount, right secret, no UInt64 overflow) pass. *)
Theorem mintZkUsd_spec (hash : Z -> Z) (price : Z) (w : World) (recipient : address)
  (amount secret : Z) :
  let s := vault w in
  (forall v us, mintZkUsd hash price w recipient amount secret = Ok (v, us) ->
     0 < amount /\ ownershipHash s = hash secret /\ is_u64 (debtAmount s + amount)
     /\ (exists hf, calculateHealthFactor (collateralAmount s) (debtAmount s + amount) price
                    = Ok hf /\ MIN_HEALTH_FACTOR <= hf)
     /\ debtAmount v = debtAmount s + amount
     /\ interactionFlag v = true
     /\ v = mkVault (collateralAmount s) (debtAmount s + amount) (ownershipHash s) true
     /\ us = [TokenMint recipient amount])
  /\ (forall hf,
      calculateHealthFactor (collateralAmount s) (debtAmount s + amount) price = Ok hf ->
      hf < MIN_HEALTH_FACTOR ->
      (exists e, mintZkUsd hash price w recipient amount secret = Err e
                 /\ transact w (mintZkUsd hash price w recipient amount secret) = Err e)
      /\ (0 < amount -> ownershipHash s = hash secret -> is_u64 (debtAmount s + amount) ->
          mintZkUsd hash price w recipient amount secret = Err HealthFactorTooLow)).
Proof.
  intros s. split.
  { intros v us H.
    destruct (mintZkUsd_inv hash price w recipient amount secret v us H)
      as (Ha & Hs & Hu & Hhf & Hv & Hus).
    fold s in Ha, Hs, Hu, Hhf, Hv, Hus. subst v.
    split; [exact Ha|]. split; [exact Hs|]. split; [exact Hu|].
    split; [destruct Hhf as (hf & Hhf & Hle); exists hf; split; [exact Hhf | lia]|].
    repeat split; auto. }
  intros hf Hhf Hlt. split.
  { destruct (mintZkUsd hash price w recipient amount secret) as [[v us]|e] eqn:Hm.
    - exfalso.
      destruct (mintZkUsd_inv hash price w recipient amount secret v us Hm)
        as (_ & _ & _ & (hf' & Hhf' & Hle) & _).
      fold s in Hhf'. rewrite Hhf in Hhf'. inversion Hhf'. lia.
    - exists e. split; reflexivity. }
  intros Ha Hs Hu.
  unfold mintZkUsd, assert, u64_add. fold s.
  apply Z.ltb_lt in Ha. rewrite Ha. simpl.
  replace (ownershipHash s =? hash secret) with true
    by (symmetry; apply Z.eqb_eq; exact Hs).
  simpl. rewrite u64_check_ok by exact Hu. simpl. rewrite Hhf. simpl.
  rewrite (hf_gte_low _ _ _ _ Hhf Hlt).
  reflexivity.
Qed.

Lemma mintZkUsd_spec_witness :
  mintZkUsd (fun x => x) 1000000000
    (mkWorld (mkVault 1000000000 0 5 false) (fun _ => 0) (fun _ => 0)) 10 1000000000 5
  = Err HealthFactorTooLow.
Proof.
  exact (proj2 (proj2 (mintZkUsd_spec (fun x => x) 1000000000
           (mkWorld (mkVault 1000000000 0 5 false) (fun _ => 0) (fun _ => 0))
           10 1000000000 5) 66 ltac:(vm_compute; reflexivity)
           ltac:(unfold MIN_HEALTH_FACTOR; lia))
           ltac:(lia) eq_refl ltac:(unfold is_u64, UINT64_LIMIT; simpl; lia)).
Defined.

(** C2 refuted as stated: with a health factor of 0 for the hypothetical
    debt, a mint of amount 0 is rejected with [AmountZero], not
    [HealthFactorTooLow]: the amount and the secret are checked first. *)
Lemma mintZkUsd_check_order :
  calculateHealthFactor 0 (1000000000 + 0) 1000000000 = Ok 0
  /\ mintZkUsd (fun x => x) 1000000000
       (mkWorld (mkVault 0 1000000000 5 false) (fun _ => 0) (fun _ => 0)) 10 0 5
     = Err AmountZero
  /\ mintZkUsd (fun x => x) 1000000000
       (mkWorld (mkVault 0 1000000000 5 false) (fun _ => 0) (fun _ => 0)) 10 0 5
     <> Err HealthFactorTooLow.
Proof.
  split; [vm_compute; reflexivity|].
  split; [reflexivity | discriminate].
Qed.

Lemma liquidate_inv (sender : address) (price : Z) (w : World) (v : Vault)
  (us : list Update) :
  let s := vault w in
  liquidate sender price w = Ok (v, us) ->
  (exists hf, calculateHealthFactor (collateralAmount s) (debtAmount s) price = Ok hf
              /\ hf <= MIN_HEALTH_FACTOR)
  /\ v = mkVault 0 0 (ownershipHash s) (interactionFlag s)
  /\ us = [SendMina VAULT_ADDRESS sender (collateralAmount s);
           TokenBurn sender (debtAmount s)].
Proof.
  intros s H. unfold liquidate, assert in H. fold s in H.
  destruct (calculateHealthFactor (collateralAmount s) (debtAmount s) price)
    as [hf|] eqn:Hhf; simpl in H; [|discriminate].
  destruct (hf <=? MIN_HEALTH_FACTOR) eqn:Hle; simpl in H; [|discriminate].
  inversion H; subst. apply Z.leb_le in Hle.
  split; [exists hf; auto | split; reflexivity].
Qed.

Lemma liquidate_ok (sender : address) (price : Z) (w : World) (hf : Z) :
  let s := vault w in
  calculateHealthFactor (collateralAmount s) (debtAmount s) price = Ok hf ->
  hf <= MIN_HEALTH_FACTOR ->
  liquidate sender price w
  = Ok (mkVault 0 0 (ownershipHash s) (interactionFlag s),
        [SendMina VAULT_ADDRESS sender (collateralAmount s);
         TokenBurn sender (debtAmount s)]).
Proof.
  intros s Hhf Hle. unfold liquidate, assert. fold s. rewrite Hhf. simpl.
  apply Z.leb_le in Hle. rewrite Hle. reflexivity.
Qed.

(** The ledger part of a liquidation: the vault pays out the collateral and
    the liquidator's zkUSD is burned. *)
Lemma liquidate_updates (w : World) (v : Vault) (sender : address) (c d : Z) :
  sender <> VAULT_ADDRESS ->
  apply_updates (set_vault w v) [SendMina VAULT_ADDRESS sender c; TokenBurn sender d]
  = if (c <=? mina w VAULT_ADDRESS) && (d <=? zkusd w sender)
    then Ok (mkWorld v
               (upd (upd (mina w) VAULT_ADDRESS (mina w VAULT_ADDRESS - c))
                    sender (mina w sender + c))
               (upd (zkusd w) sender (zkusd w sender - d)))
    else if c <=? mina w VAULT_ADDRESS then Err TokenInsufficientBalance
    else Err InsufficientMina.
Proof.
  intros Hs. simpl. unfold send_mina, token_burn, assert. simpl.
  destruct (c <=? mina w VAULT_ADDRESS); simpl; [|reflexivity].
  unfold upd at 3. apply Z.eqb_neq in Hs. rewrite Hs.
  destruct (d <=? zkusd w sender); reflexivity.
Qed.

(** C3 (amended): [liquidate] takes no secret. When the health factor of the
    current collateral, debt and oracle price is above 100 it is rejected
    with [HealthFactorTooHigh] and nothing changes. When it is at most 100
    the vault's checks pass, and the transaction succeeds exactly when the
    vault holds the collateral in MINA and the liquidator holds
    [debtAmount] zkUSD to burn. A successful liquidation leaves collateral
    and debt at zero, pays the liquidator exactly the prior collateral and
    burns exactly the prior debt from the liquidator. *)
Theorem liquidate_spec (sender : address) (price : Z) (w : World) :
  sender <> VAULT_ADDRESS ->
  let s := vault w in
  (forall w', transact w (liquidate sender price w) = Ok w' ->
     (exists hf, calculateHealthFactor (collateralAmount s) (debtAmount s) price = Ok hf
                 /\ hf <= MIN_HEALTH_FACTOR)
     /\ collateralAmount (vault w') = 0 /\ debtAmount (vault w') = 0
     /\ mina w' sender = mina w sender + collateralAmount s
     /\ mina w' VAULT_ADDRESS = mina w VAULT_ADDRESS - collateralAmount s
     /\ zkusd w' sender = zkusd w sender - debtAmount s)
  /\ (forall hf,
      calculateHealthFactor (collateralAmount s) (debtAmount s) price = Ok hf ->
      MIN_HEALTH_FACTOR < hf ->
      liquidate sender price w = Err HealthFactorTooHigh
      /\ transact w (liquidate sender price w) = Err HealthFactorTooHigh)
  /\ (forall hf,
      calculateHealthFactor (collateralAmount s) (debtAmount s) price = Ok hf ->
      hf <= MIN_HEALTH_FACTOR ->
      ((exists w', transact w (liquidate sender price w) = Ok w')
       <-> collateralAmount s <= mina w VAULT_ADDRESS
           /\ debtAmount s <= zkusd w sender)).
Proof.
  intros Hsv s. split; [|split].
  - intros w' H. unfold transact in H.
    destruct (liquidate sender price w) as [[v us]|e] eqn:Hl; simpl in H;
      [|discriminate].
    destruct (liquidate_inv sender price w v us Hl) as (Hhf & -> & ->).
    fold s in Hhf. split; [exact Hhf|].
    rewrite liquidate_updates in H by exact Hsv.
    repeat case_guard; try discriminate.
    inversion H; subst; simpl.
    unfold upd. rewrite Z.eqb_refl.
    assert (Hne : (VAULT_ADDRESS =? sender) = false)
      by (apply Z.eqb_neq; intros E; apply Hsv; symmetry; exact E).
    rewrite Hne. repeat split; reflexivity.
  - intros hf Hhf Hlt.
    assert (E : liquidate sender price w = Err HealthFactorTooHigh).
    { unfold liquidate, assert. fold s. rewrite Hhf. simpl.
      replace (hf <=? MIN_HEALTH_FACTOR) with false
        by (symmetry; apply Z.leb_gt; exact Hlt).
      reflexivity. }
    rewrite E. split; reflexivity.
  - intros hf Hhf Hle. unfold transact.
    rewrite (liquidate_ok sender price w hf Hhf Hle). cbn [bind].
    rewrite liquidate_updates by exact Hsv. fold s.
    destruct (Z.leb_spec (collateralAmount s) (mina w VAULT_ADDRESS)),
             (Z.leb_spec (debtAmount s) (zkusd w sender)); simpl.
    + split; [intros _; split; assumption | intros _; eexists; reflexivity].
    + split; [intros [w' E]; discriminate | intros [_ ?]; lia].
    + split; [intros [w' E]; discriminate | intros [? _]; lia].
    + split; [intros [w' E]; discriminate | intros [? _]; lia].
Qed.

Lemma liquidate_spec_witness :
  exists w', transact
    (mkWorld (mkVault 1000000000 1000000000 5 false)
       (fun a => if a =? VAULT_ADDRESS then 1000000000 else 0)
       (fun a => if a =? 10 then 1000000000 else 0))
    (liquidate 10 1000000000
       (mkWorld (mkVault 1000000000 1000000000 5 false)
          (fun a => if a =? VAULT_ADDRESS then 1000000000 else 0)
          (fun a => if a =? 10 then 1000000000 else 0))) = Ok w'.
Proof.
  apply (proj2 (proj2 (proj2 (liquidate_spec 10 1000000000
    (mkWorld (mkVault 1000000000 1000000000 5 false)
       (fun a => if a =? VAULT_ADDRESS then 1000000000 else 0)
       (fun a => if a =? 10 then 1000000000 else 0)) ltac:(unfold VAULT_ADDRESS; discriminate)))
    66 ltac:(vm_compute; reflexivity) ltac:(unfold MIN_HEALTH_FACTOR; lia))).
  simpl. split; lia.
Defined.

(** C3 refuted as stated: a vault with health factor 66 (collateral 1e9,
    debt 1e9, price 1e9) passes the liquidation check, yet the liquidation
    fails when the liquidator holds no zkUSD to burn. *)
Lemma liquidate_needs_liquidator_balance :
  calculateHealthFactor 1000000000 1000000000 1000000000 = Ok 66
  /\ 66 <= MIN_HEALTH_FACTOR
  /\ transact
       (mkWorld (mkVault 1000000000 1000000000 5 false)
          (fun a => if a =? VAULT_ADDRESS then 1000000000 else 0)
          (fun _ => 0))
       (liquidate 10 1000000000
          (mkWorld (mkVault 1000000000 1000000000 5 false)
             (fun a => if a =? VAULT_ADDRESS then 1000000000 else 0)
             (fun _ => 0)))
     = Err TokenInsufficientBalance.
Proof.
  split; [vm_compute; reflexivity|].
  split; [unfold MIN_HEALTH_FACTOR; lia|].
  vm_compute. reflexivity.
Qed.

(** The fee arithmetic of [redeemCollateral] stays in range when the
    protocol fee is a percentage and the vault holds its collateral. *)
Lemma protocolFee_bounds (sr fee : Z) :
  0 <= sr -> 0 <= fee <= 100 ->
  0 <= sr * fee / PROTOCOL_FEE_PRECISION <= sr.
Proof.
  unfold PROTOCOL_FEE_PRECISION. intros Hs Hf. split.
  - apply Z.div_pos; nia.
  - apply Z.div_le_upper_bound; nia.
Qed.

Lemma redeemCollateral_ok (hash : Z -> Z) (sender : address)
  (price currentProtocolFee : Z) (w : World) (amount secret hf : Z) :
  let s := vault w in
  let balance := mina w VAULT_ADDRESS in
  let sr := balance - collateralAmount s in
  let protocolFee := sr * currentProtocolFee / PROTOCOL_FEE_PRECISION in
  is_u64 balance -> is_u64 (collateralAmount s) -> is_u64 amount ->
  0 < balance -> ownershipHash s = hash secret -> amount <= collateralAmount s ->
  calculateHealthFactor (collateralAmount s - amount) (debtAmount s) price = Ok hf ->
  MIN_HEALTH_FACTOR <= hf < UINT64_LIMIT + MIN_HEALTH_FACTOR ->
  collateralAmount s <= balance -> 0 <= currentProtocolFee <= 100 ->
  sr * currentProtocolFee < UINT64_LIMIT ->
  redeemCollateral hash sender price currentProtocolFee w amount secret
  = Ok (mkVault (collateralAmount s - amount) (debtAmount s)
                (ownershipHash s) (interactionFlag s),
        [SendMina VAULT_ADDRESS PROTOCOL_VAULT_ADDRESS protocolFee;
         SendMina VAULT_ADDRESS sender (amount + (sr - protocolFee))]).
Proof.
  intros s balance sr protocolFee Hb Hc Ha Hb0 Hs Hle Hhf Hmin Hcb Hf Hmul.
  unfold is_u64 in Hb, Hc, Ha.
  pose proof (protocolFee_bounds sr currentProtocolFee ltac:(lia) Hf) as Hpf.
  fold protocolFee in Hpf.
  unfold redeemCollateral, assert, u64_add, u64_sub, u64_mul, u64_div.
  fold s balance.
  replace (0 <? balance) with true by (symmetry; apply Z.ltb_lt; exact Hb0).
  replace (ownershipHash s =? hash secret) with true
    by (symmetry; apply Z.eqb_eq; exact Hs).
  replace (amount <=? collateralAmount s) with true
    by (symmetry; apply Z.leb_le; exact Hle).
  cbn [bind negb andb].
  rewrite u64_check_ok by (unfold is_u64; lia). cbn [bind].
  rewrite Hhf. cbn [bind].
  rewrite (hf_gte_ok _ _ _ _ Hhf Hmin).
  cbn [bind].
  rewrite u64_check_ok by (unfold is_u64; lia). cbn [bind]. fold sr.
  rewrite u64_check_ok by (unfold is_u64; nia). cbn [bind].
  replace (PROTOCOL_FEE_PRECISION =? 0) with false by reflexivity.
  cbn [bind]. fold protocolFee.
  rewrite u64_check_ok by (unfold is_u64; lia). cbn [bind].
  rewrite u64_check_ok by (unfold is_u64; lia). cbn [bind].
  reflexivity.
Qed.

Lemma redeemCollateral_inv (hash : Z -> Z) (sender : address)
  (price currentProtocolFee : Z) (w : World) (amount secret : Z)
  (v : Vault) (us : list Update) :
  let s := vault w in
  redeemCollateral hash sender price currentProtocolFee w amount secret = Ok (v, us) ->
  0 < mina w VAULT_ADDRESS /\ ownershipHash s = hash secret
  /\ amount <= collateralAmount s
  /\ (exists hf, calculateHealthFactor (collateralAmount s - amount) (debtAmount s) price
                 = Ok hf /\ MIN_HEALTH_FACTOR <= hf < UINT64_LIMIT + MIN_HEALTH_FACTOR)
  /\ v = mkVault (collateralAmount s - amount) (debtAmount s)
                 (ownershipHash s) (interactionFlag s).
Proof.
  intros s H.
  unfold redeemCollateral, assert, u64_add, u64_sub, u64_mul, u64_div in H.
  fold s in H.
  destruct (0 <? mina w VAULT_ADDRESS) eqn:H1; cbn [bind] in H; [|discriminate].
  destruct (ownershipHash s =? hash secret) eqn:H2; cbn [bind] in H; [|discriminate].
  destruct (amount <=? collateralAmount s) eqn:H3; cbn [bind] in H; [|discriminate].
  destruct (u64_check (collateralAmount s - amount)) as [rc|] eqn:H4;
    cbn [bind] in H; [|discriminate].
  apply u64_check_inv in H4 as [-> _].
  destruct (calculateHealthFactor (collateralAmount s - amount) (debtAmount s) price)
    as [hf|] eqn:H5; cbn [bind] in H; [|discriminate].
  destruct (u64_gte hf MIN_HEALTH_FACTOR) eqn:H6; cbn [bind] in H; [|discriminate].
  apply hf_gte_iff in H6; [|exact (hf_is_field _ _ _ _ H5)].
  destruct (u64_check (mina w VAULT_ADDRESS - collateralAmount s)) as [sr|];
    cbn [bind] in H; [|discriminate].
  destruct (u64_check (sr * currentProtocolFee)) as [ft|]; cbn [bind] in H;
    [|discriminate].
  destruct (PROTOCOL_FEE_PRECISION =? 0); cbn [bind] in H; [discriminate|].
  destruct (u64_check (sr - ft / PROTOCOL_FEE_PRECISION)) as [dv|]; cbn [bind] in H;
    [|discriminate].
  destruct (u64_check (amount + dv)); cbn [bind] in H; [|discriminate].
  inversion H; subst.
  apply Z.ltb_lt in H1. apply Z.eqb_eq in H2. apply Z.leb_le in H3.
  split; [exact H1|]. split; [exact H2|]. split; [exact H3|].
  split; [exists hf; split; [try reflexivity; exact H5 | lia] | reflexivity].
Qed.





(** ** The guards at health factor 100 *)

(** C9: at a health factor of exactly 100 the liquidation guard
    ([healthFactor <= 100]) and the mint/redeem guard ([healthFactor >= 100])
    both pass. With collateral 1.5e9, debt 1e9 and price 1e9 the health
    factor is 100, the vault can be liquidated and can redeem (amount 0);
    with collateral 1.5e9 + 2 the health factor is again 100, the vault can
    be liquidated and a mint of 1 (hypothetical debt 1e9 + 1, health factor
    still 100) is accepted. *)
Theorem health_factor_100_guards_overlap :
  exists w price,
    calculateHealthFactor (collateralAmount (vault w)) (debtAmount (vault w)) price
      = Ok MIN_HEALTH_FACTOR
    /\ (exists v us, liquidate 10 price w = Ok (v, us))
    /\ (exists v us, redeemCollateral (fun x => x) 10 price 0 w 0 5 = Ok (v, us))
  /\ exists w' price',
    calculateHealthFactor (collateralAmount (vault w')) (debtAmount (vault w')) price'
      = Ok MIN_HEALTH_FACTOR
    /\ calculateHealthFactor (collateralAmount (vault w'))
         (debtAmount (vault w') + 1) price' = Ok MIN_HEALTH_FACTOR
    /\ (exists v us, liquidate 10 price' w' = Ok (v, us))
    /\ (exists v us, mintZkUsd (fun x => x) price' w' 10 1 5 = Ok (v, us)).
Proof.
  exists (mkWorld (mkVault 1500000000 1000000000 5 false)
            (fun a => if a =? VAULT_ADDRESS then 1500000000 else 0) (fun _ => 0)).
  exists 1000000000.
  split; [vm_compute; reflexivity|].
  split; [do 2 eexists; vm_compute; reflexivity|].
  split; [do 2 eexists; vm_compute; reflexivity|].
  exists (mkWorld (mkVault 1500000002 1000000000 5 false)
            (fun a => if a =? VAULT_ADDRESS then 1500000002 else 0) (fun _ => 0)).
  exists 1000000000.
  split; [vm_compute; reflexivity|].
  split; [vm_compute; reflexivity|].
  split; do 2 eexists; vm_compute; reflexivity.
Qed.

(** ** The interaction flag *)

(** One account update touches the vault's own state only through the
    token ledger's mint, which consumes the interaction flag. *)
Lemma apply_update_vault (w w1 : World) (u : Update) :
  apply_update w u = Ok w1 ->
  vault w1 = match u with TokenMint _ _ => set_flag (vault w) false | _ => vault w end
  /\ match u with TokenMint _ _ => interactionFlag (vault w) = true | _ => True end.
Proof.
  destruct u as [f t a|r a|o a]; cbn [apply_update]; intros H.
  - unfold send_mina, assert in H.
    destruct (a <=? mina w f); cbn [bind] in H; [|discriminate].
    injection H as <-. split; [reflexivity | exact I].
  - unfold token_mint, assertInteractionFlag, assert in H.
    destruct (Bool.eqb (interactionFlag (vault w)) true) eqn:E; cbn [bind] in H;
      [|discriminate].
    injection H as <-. split; [reflexivity | apply Bool.eqb_prop in E; exact E].
  - unfold token_burn, assert in H.
    destruct (a <=? zkusd w o); cbn [bind] in H; [|discriminate].
    injection H as <-. split; [reflexivity | exact I].
Qed.

(** Account updates leave the vault's own state alone, except that a mint
    of the token ledger consumes the interaction flag. *)
Lemma apply_updates_vault (w w' : World) (us : list Update) :
  apply_updates w us = Ok w' ->
  vault w' = if mints us then set_flag (vault w) false else vault w.
Proof.
  revert w. induction us as [|u us IH]; intros w H; cbn [apply_updates] in H.
  - injection H as <-. reflexivity.
  - destruct (apply_update w u) as [w1|e] eqn:Hu; cbn [bind] in H; [|discriminate].
    rewrite (IH w1 H). destruct (apply_update_vault w w1 u Hu) as [Hv _].
    destruct u; rewrite Hv; cbn [mints]; destruct (mints us); reflexivity.
Qed.

(** Case analysis on the intermediate results of a method. *)
Ltac split_results :=
  repeat (cbn [bind] in *;
          first [ case_guard
                | match goal with
                  | |- context [bind ?m _] =>
                      lazymatch m with
                      | Ok _ => fail
                      | Err _ => fail
                      | _ => destruct m eqn:?
                      end
                  | H : context [bind ?m _] |- _ =>
                      lazymatch m with
                      | Ok _ => fail
                      | Err _ => fail
                      | _ => destruct m eqn:?
                      end
                  end ]);
  cbn [bind] in *.

Ltac flag_frame :=
  cbn [vault set_vault set_flag collateralAmount debtAmount ownershipHash
       interactionFlag mina zkusd];
  split_results; cbn [flagless]; try reflexivity.

Ltac flag_kept :=
  intros H; split_results; try discriminate; inversion H; reflexivity.

(** C10: the interaction flag is written only by [mintZkUsd] (to true) and
    [assertInteractionFlag] (to false, after requiring it to be true).
    [depositCollateral], [redeemCollateral], [burnZkUsd] and [liquidate]
    neither read it (their outcome with any other flag value is the same,
    flag aside) nor write it (a successful call keeps it); [burnZkUsd]
    requests the ledger's burn with the flag untouched; and the ledger updates
    of a transaction leave the vault state as the method set it, except that
    the ledger's mint, requested only by [mintZkUsd], resets the flag through
    [assertInteractionFlag]. *)
Theorem interactionFlag_frame :
  (forall hash sender w amount secret b,
     depositCollateral hash sender (set_vault w (set_flag (vault w) b)) amount secret
     = flagless b (depositCollateral hash sender w amount secret))
  /\ (forall hash sender price fee w amount secret b,
     redeemCollateral hash sender price fee (set_vault w (set_flag (vault w) b)) amount secret
     = flagless b (redeemCollateral hash sender price fee w amount secret))
  /\ (forall hash sender w amount secret b,
     burnZkUsd hash sender (set_vault w (set_flag (vault w) b)) amount secret
     = flagless b (burnZkUsd hash sender w amount secret))
  /\ (forall sender price w b,
     liquidate sender price (set_vault w (set_flag (vault w) b))
     = flagless b (liquidate sender price w))
  /\ (forall hash sender w amount secret v us,
     depositCollateral hash sender w amount secret = Ok (v, us) ->
     interactionFlag v = interactionFlag (vault w))
  /\ (forall hash sender price fee w amount secret v us,
     redeemCollateral hash sender price fee w amount secret = Ok (v, us) ->
     interactionFlag v = interactionFlag (vault w))
  /\ (forall hash sender w amount secret v us,
     burnZkUsd hash sender w amount secret = Ok (v, us) ->
     interactionFlag v = interactionFlag (vault w)
     /\ us = [TokenBurn sender amount])
  /\ (forall sender price w v us,
     liquidate sender price w = Ok (v, us) ->
     interactionFlag v = interactionFlag (vault w))
  /\ (forall hash price w recipient amount secret v us,
     mintZkUsd hash price w recipient amount secret = Ok (v, us) ->
     interactionFlag v = true)
  /\ (forall w, interactionFlag (vault w) = true ->
     assertInteractionFlag w = Ok (set_flag (vault w) false, true))
  /\ (forall w, interactionFlag (vault w) = false ->
     assertInteractionFlag w = Err PreconditionFailed)
  /\ (forall w m w', transact w m = Ok w' ->
     exists v us, m = Ok (v, us)
       /\ vault w' = if mints us then set_flag v false else v).
Proof.
  split; [|split; [|split; [|split; [|split; [|split; [|split;
    [|split; [|split; [|split; [|split]]]]]]]]]].
  - intros. unfold depositCollateral, assert, u64_add. flag_frame.
  - intros. unfold redeemCollateral, assert, u64_add, u64_sub, u64_mul, u64_div.
    flag_frame.
  - intros. unfold burnZkUsd, assert, u64_sub. flag_frame.
  - intros. unfold liquidate, assert. flag_frame.
  - intros hash sender w amount secret v us.
    unfold depositCollateral, assert, u64_add. flag_kept.
  - intros hash sender price fee w amount secret v us.
    unfold redeemCollateral, assert, u64_add, u64_sub, u64_mul, u64_div. flag_kept.
  - intros hash sender w amount secret v us.
    unfold burnZkUsd, assert, u64_sub.
    intros H; split_results; try discriminate; inversion H; split; reflexivity.
  - intros sender price w v us. unfold liquidate, assert. flag_kept.
  - intros hash price w recipient amount secret v us.
    unfold mintZkUsd, assert, u64_add. flag_kept.
  - intros w H. unfold assertInteractionFlag, assert. rewrite H. reflexivity.
  - intros w H. unfold assertInteractionFlag, assert. rewrite H. reflexivity.
  - intros w m w' H. unfold transact in H.
    destruct m as [[v us]|e]; simpl in H; [|discriminate].
    exists v, us. split; [reflexivity|].
    apply apply_updates_vault in H. exact H.
Qed.

Lemma interactionFlag_frame_witness :
  assertInteractionFlag
    (mkWorld (mkVault 0 0 5 true) (fun _ => 0) (fun _ => 0))
  = Ok (mkVault 0 0 5 false, true).
Proof.
  destruct interactionFlag_frame as (_ & _ & _ & _ & _ & _ & _ & _ & _ & Hset & _).
  exact (Hset (mkWorld (mkVault 0 0 5 true) (fun _ => 0) (fun _ => 0)) eq_refl).
Defined.

(** ** Further properties of the vault *)

(** *** The health factor in closed form *)

Lemma hf_closed (c d p : Z) :
  is_u64 c -> is_u64 d -> is_u64 p ->
  calculateHealthFactor c d p
  = Ok (if d =? 0 then MAXINT else c * p / UNIT_PRECISION * 100 / 150 * 100 / d).
Proof.
  intros Hc Hd Hp.
  rewrite calculateHealthFactor_unfold, (maxAllowedDebt_no_wrap c p Hc Hp).
  apply safeDiv_ok.
  - rewrite <- (maxAllowedDebt_no_wrap c p Hc Hp). apply fmul_field.
  - pose proof (u64_lt_field d Hd). unfold is_u64 in Hd. lia.
Qed.

Lemma div_le_self (x y : Z) : 0 <= x -> 0 < y -> x / y <= x.
Proof. intros Hx Hy. apply Z.div_le_upper_bound; nia. Qed.

(** The liquidation check [healthFactor.assertLessThanOrEqual(100)] of the
    proved circuit range-checks the field difference [100 - healthFactor]
    to 64 bits. For UInt64 collateral, debt and price the health factor
    stays far below the field modulus, so this check agrees with the integer
    comparison [healthFactor <= 100] that [liquidate] is written with. *)
Lemma liquidate_check_agrees (c d p hf : Z) :
  is_u64 c -> is_u64 d -> is_u64 p ->
  calculateHealthFactor c d p = Ok hf ->
  (hf <=? MIN_HEALTH_FACTOR) = (fsub MIN_HEALTH_FACTOR hf <? UINT64_LIMIT).
Proof.
  intros Hc Hd Hp H. rewrite hf_closed in H by assumption. injection H as <-.
  unfold is_u64 in *.
  assert (Hb : 0 <= (if d =? 0 then MAXINT
                     else c * p / UNIT_PRECISION * 100 / 150 * 100 / d)
               <= c * p * 100 * 100 + MAXINT).
  { destruct (Z.eqb_spec d 0) as [E|E].
    - unfold MAXINT, UINT64_LIMIT in *. nia.
    - assert (H1 : 0 <= c * p / UNIT_PRECISION <= c * p).
      { split; [apply Z.div_pos | apply div_le_self]; unfold UNIT_PRECISION; nia. }
      assert (H2 : 0 <= c * p / UNIT_PRECISION * 100 / 150 <= c * p * 100).
      { split; [apply Z.div_pos; lia|].
        eapply Z.le_trans; [apply div_le_self; lia | lia]. }
      assert (H3 : 0 <= c * p / UNIT_PRECISION * 100 / 150 * 100 / d
                   <= c * p * 100 * 100).
      { split; [apply Z.div_pos; lia|].
        eapply Z.le_trans; [apply div_le_self; lia | lia]. }
      unfold MAXINT, UINT64_LIMIT. lia. }
  revert Hb.
  generalize (if d =? 0 then MAXINT
              else c * p / UNIT_PRECISION * 100 / 150 * 100 / d) as hf.
  intros hf Hb.
  assert (Hcp : c * p < UINT64_LIMIT * UINT64_LIMIT) by nia.
  unfold fsub, MIN_HEALTH_FACTOR. destruct (Z.le_gt_cases hf 100).
  - rewrite Z.mod_small by (unfold field_modulus; lia).
    replace (hf <=? 100) with true by (symmetry; apply Z.leb_le; lia).
    symmetry. apply Z.ltb_lt. unfold UINT64_LIMIT. lia.
  - replace (hf <=? 100) with false by (symmetry; apply Z.leb_gt; lia).
    rewrite <- (Z.mod_add (100 - hf) 1 field_modulus) by (unfold field_modulus; lia).
    unfold field_modulus, MAXINT, UINT64_LIMIT in *.
    rewrite Z.mod_small by lia.
    symmetry. apply Z.ltb_ge. lia.
Qed.

Lemma le_div_iff (a b k : Z) : 0 < b -> (k <= a / b <-> b * k <= a).
Proof.
  intros Hb. split.
  - intros H. pose proof (Z.mul_div_le a b Hb). nia.
  - intros H. apply Z.div_le_lower_bound; assumption.
Qed.

Lemma div_le_iff (a b k : Z) : 0 < b -> (a / b <= k <-> a < b * (k + 1)).
Proof.
  intros Hb. split.
  - intros H. pose proof (Z.div_mod a b ltac:(lia)).
    pose proof (Z.mod_pos_bound a b Hb). nia.
  - intros H. assert (a / b < k + 1) by (apply Z.div_lt_upper_bound; lia). lia.
Qed.

Lemma usd_ratio_nonneg (c p : Z) :
  0 <= c -> 0 <= p -> 0 <= c * p / UNIT_PRECISION * 100 / 150.
Proof.
  intros Hc Hp. unfold UNIT_PRECISION.
  apply Z.div_pos; [|lia]. apply Z.mul_nonneg_nonneg; [|lia].
  apply Z.div_pos; nia.
Qed.

Lemma hf_ge_min_iff (c d p hf : Z) :
  is_u64 c -> is_u64 d -> is_u64 p ->
  calculateHealthFactor c d p = Ok hf ->
  (MIN_HEALTH_FACTOR <= hf <-> d <= c * p / UNIT_PRECISION * 100 / 150).
Proof.
  intros Hc Hd Hp H. rewrite hf_closed in H by assumption. injection H as <-.
  pose proof (usd_ratio_nonneg c p ltac:(unfold is_u64 in Hc; lia)
                ltac:(unfold is_u64 in Hp; lia)) as HM.
  unfold MIN_HEALTH_FACTOR.
  destruct (Z.eqb_spec d 0) as [->|Hd0].
  - unfold MAXINT, UINT64_LIMIT. split; intros; lia.
  - unfold is_u64 in Hd. rewrite le_div_iff by lia. lia.
Qed.

Lemma hf_le_min_iff (c d p hf : Z) :
  is_u64 c -> is_u64 d -> is_u64 p ->
  calculateHealthFactor c d p = Ok hf ->
  (hf <= MIN_HEALTH_FACTOR
   <-> 0 < d /\ 100 * (c * p / UNIT_PRECISION * 100 / 150) < 101 * d).
Proof.
  intros Hc Hd Hp H. rewrite hf_closed in H by assumption. injection H as <-.
  unfold MIN_HEALTH_FACTOR.
  destruct (Z.eqb_spec d 0) as [->|Hd0].
  - unfold MAXINT, UINT64_LIMIT. split; intros; lia.
  - unfold is_u64 in Hd. rewrite div_le_iff by lia. lia.
Qed.

(** X3: the stored vault is healthy (health factor at least 100 at the
    oracle price) exactly when its debt is at most two thirds of the USD
    value of its collateral, each rounded down:
    [debt <= floor(floor(collateral * price / 1e9) * 100 / 150)]. *)
Theorem getHealthFactor_healthy_iff (price : Z) (w : World) :
  let s := vault w in
  is_u64 (collateralAmount s) -> is_u64 (debtAmount s) -> is_u64 price ->
  exists hf, getHealthFactor price w = Ok hf
    /\ (MIN_HEALTH_FACTOR <= hf
        <-> debtAmount s <= collateralAmount s * price / UNIT_PRECISION * 100 / 150).
Proof.
  intros s Hc Hd Hp. unfold getHealthFactor. fold s.
  rewrite hf_closed by assumption. eexists. split; [reflexivity|].
  apply hf_ge_min_iff; [exact Hc | exact Hd | exact Hp |].
  apply hf_closed; assumption.
Qed.

(** X4: the stored vault passes the liquidation check (health factor at
    most 100) exactly when it has a positive debt [d] and
    [100 * floor(floor(collateral * price / 1e9) * 100 / 150) < 101 * d];
    a vault without debt can never be liquidated. *)
Theorem getHealthFactor_liquidatable_iff (price : Z) (w : World) :
  let s := vault w in
  is_u64 (collateralAmount s) -> is_u64 (debtAmount s) -> is_u64 price ->
  exists hf, getHealthFactor price w = Ok hf
    /\ (hf <= MIN_HEALTH_FACTOR
        <-> 0 < debtAmount s
            /\ 100 * (collateralAmount s * price / UNIT_PRECISION * 100 / 150)
               < 101 * debtAmount s).
Proof.
  intros s Hc Hd Hp. unfold getHealthFactor. fold s.
  rewrite hf_closed by assumption. eexists. split; [reflexivity|].
  apply hf_le_min_iff; [exact Hc | exact Hd | exact Hp |].
  apply hf_closed; assumption.
Qed.

(** X5: once the amount is positive, the secret is right and the new debt
    fits in a UInt64, a mint succeeds exactly when the new debt
    [debtAmount + amount] is at most
    [bound = floor(floor(collateral * price / 1e9) * 100 / 150)] and the
    resulting health factor [floor(bound * 100 / (debtAmount + amount))] is
    below [2^64 + 100], the range the 64-bit check on [healthFactor - 100]
    admits. The first condition makes [bound] minus the current debt the
    largest amount that can be minted; the second rejects a mint that leaves
    the debt tiny against the collateral. *)
Theorem mintZkUsd_capacity (hash : Z -> Z) (price : Z) (w : World)
  (recipient : address) (amount secret : Z) :
  let s := vault w in
  is_u64 (collateralAmount s) -> is_u64 (debtAmount s) -> is_u64 price ->
  0 < amount -> ownershipHash s = hash secret -> is_u64 (debtAmount s + amount) ->
  ((exists v us, mintZkUsd hash price w recipient amount secret = Ok (v, us))
   <-> debtAmount s + amount
       <= collateralAmount s * price / UNIT_PRECISION * 100 / 150
       /\ collateralAmount s * price / UNIT_PRECISION * 100 / 150 * 100
          / (debtAmount s + amount) < UINT64_LIMIT + MIN_HEALTH_FACTOR).
Proof.
  intros s Hc Hd Hp Ha Hs Hu.
  assert (Hhf := hf_closed _ _ _ Hc Hu Hp).
  replace (debtAmount s + amount =? 0) with false in Hhf
    by (symmetry; apply Z.eqb_neq; unfold is_u64 in Hd; lia).
  set (hf := collateralAmount s * price / UNIT_PRECISION * 100 / 150 * 100
             / (debtAmount s + amount)) in *.
  rewrite <- (hf_ge_min_iff _ _ _ hf Hc Hu Hp Hhf).
  split.
  - intros (v & us & H).
    destruct (mintZkUsd_inv hash price w recipient amount secret v us H)
      as (_ & _ & _ & (hf' & Hhf' & Hle) & _).
    fold s in Hhf'. rewrite Hhf in Hhf'. injection Hhf' as <-. exact Hle.
  - intros Hle. unfold mintZkUsd, assert, u64_add. fold s.
    replace (0 <? amount) with true by (symmetry; apply Z.ltb_lt; exact Ha).
    replace (ownershipHash s =? hash secret) with true
      by (symmetry; apply Z.eqb_eq; exact Hs).
    cbn [bind]. rewrite u64_check_ok by exact Hu. cbn [bind].
    rewrite Hhf. cbn [bind].
    rewrite (hf_gte_ok _ _ _ _ Hhf Hle).
    cbn [bind]. do 2 eexists. reflexivity.
Qed.

(** X6: when the balance is positive, the secret is right, the amount is at
    most the collateral, the balance covers the collateral and the protocol
    fee is a percentage whose product with the staking rewards fits in a
    UInt64, a redemption succeeds exactly when the debt is at most
    [bound = floor(floor((collateral - amount) * price / 1e9) * 100 / 150)]
    and, for a positive debt, the resulting health factor
    [floor(bound * 100 / debt)] is below [2^64 + 100], the range the 64-bit
    check on [healthFactor - 100] admits. *)
Theorem redeemCollateral_capacity (hash : Z -> Z) (sender : address)
  (price currentProtocolFee : Z) (w : World) (amount secret : Z) :
  let s := vault w in
  let balance := mina w VAULT_ADDRESS in
  is_u64 balance -> is_u64 (collateralAmount s) -> is_u64 (debtAmount s) ->
  is_u64 amount -> is_u64 price ->
  0 < balance -> ownershipHash s = hash secret -> amount <= collateralAmount s ->
  collateralAmount s <= balance -> 0 <= currentProtocolFee <= 100 ->
  (balance - collateralAmount s) * currentProtocolFee < UINT64_LIMIT ->
  ((exists v us,
      redeemCollateral hash sender price currentProtocolFee w amount secret = Ok (v, us))
   <-> debtAmount s
       <= (collateralAmount s - amount) * price / UNIT_PRECISION * 100 / 150
       /\ (0 < debtAmount s ->
           (collateralAmount s - amount) * price / UNIT_PRECISION * 100 / 150 * 100
           / debtAmount s < UINT64_LIMIT + MIN_HEALTH_FACTOR)).
Proof.
  intros s balance Hb Hc Hd Ha Hp Hb0 Hs Hle Hcb Hf Hmul.
  assert (Hr : is_u64 (collateralAmount s - amount)) by (unfold is_u64 in *; lia).
  assert (Hhf := hf_closed _ _ _ Hr Hd Hp).
  set (hf := if debtAmount s =? 0 then MAXINT else _) in Hhf.
  assert (Hhi : hf < UINT64_LIMIT + MIN_HEALTH_FACTOR
                <-> (0 < debtAmount s ->
                     (collateralAmount s - amount) * price / UNIT_PRECISION * 100 / 150
                     * 100 / debtAmount s < UINT64_LIMIT + MIN_HEALTH_FACTOR)).
  { unfold hf. unfold is_u64 in Hd.
    destruct (Z.eqb_spec (debtAmount s) 0) as [E|E].
    - unfold MAXINT, MIN_HEALTH_FACTOR, UINT64_LIMIT. split; intros; lia.
    - split; intros H; [intros _; exact H | apply H; lia]. }
  rewrite <- Hhi, <- (hf_ge_min_iff _ _ _ hf Hr Hd Hp Hhf).
  split.
  - intros (v & us & H).
    destruct (redeemCollateral_inv hash sender price currentProtocolFee w amount secret
                v us H) as (_ & _ & _ & (hf' & Hhf' & Hmin) & _).
    fold s in Hhf'. rewrite Hhf in Hhf'. injection Hhf' as <-. exact Hmin.
  - intros Hmin. do 2 eexists.
    exact (redeemCollateral_ok hash sender price currentProtocolFee w amount secret hf
             Hb Hc Ha Hb0 Hs Hle Hhf Hmin Hcb Hf Hmul).
Qed.

(** X7: the health factor never decreases when the collateral or the price
    grows (the debt fixed). *)
Theorem calculateHealthFactor_monotone (c1 c2 d p1 p2 : Z) :
  is_u64 c1 -> is_u64 c2 -> is_u64 d -> is_u64 p1 -> is_u64 p2 ->
  c1 <= c2 -> p1 <= p2 ->
  exists h1 h2, calculateHealthFactor c1 d p1 = Ok h1
    /\ calculateHealthFactor c2 d p2 = Ok h2 /\ h1 <= h2.
Proof.
  intros Hc1 Hc2 Hd Hp1 Hp2 Hc Hp.
  rewrite (hf_closed c1 d p1), (hf_closed c2 d p2) by assumption.
  do 2 eexists. split; [reflexivity|]. split; [reflexivity|].
  unfold is_u64 in *.
  destruct (Z.eqb_spec d 0); [lia|].
  apply Z.div_le_mono; [lia|].
  apply Z.mul_le_mono_nonneg_r; [lia|].
  apply Z.div_le_mono; [lia|].
  apply Z.mul_le_mono_nonneg_r; [lia|].
  apply Z.div_le_mono; [unfold UNIT_PRECISION; lia|].
  nia.
Qed.

(** X8: among positive debts, a larger debt never gives a larger health
    factor; the zero-debt value [MAXINT] is not an upper bound, since a debt
    of 1 can give a larger health factor than no debt at all. *)
Theorem calculateHealthFactor_antitone_debt (c d1 d2 p : Z) :
  is_u64 c -> is_u64 d2 -> is_u64 p -> 0 < d1 <= d2 ->
  (exists h1 h2, calculateHealthFactor c d1 p = Ok h1
     /\ calculateHealthFactor c d2 p = Ok h2 /\ h2 <= h1)
  /\ (exists c' p' h, is_u64 c' /\ is_u64 p'
        /\ calculateHealthFactor c' 1 p' = Ok h
        /\ calculateHealthFactor c' 0 p' = Ok MAXINT /\ MAXINT < h).
Proof.
  intros Hc Hd2 Hp Hd.
  assert (Hd1 : is_u64 d1) by (unfold is_u64 in *; lia).
  split.
  - rewrite (hf_closed c d1 p), (hf_closed c d2 p) by assumption.
    do 2 eexists. split; [reflexivity|]. split; [reflexivity|].
    destruct (Z.eqb_spec d1 0); [lia|]. destruct (Z.eqb_spec d2 0); [lia|].
    apply Z.div_le_compat_l; [|lia].
    unfold is_u64 in Hc, Hp.
    apply Z.mul_nonneg_nonneg; [apply usd_ratio_nonneg|]; lia.
  - exists MAXINT, MAXINT. eexists.
    split; [unfold is_u64, MAXINT, UINT64_LIMIT; lia|].
    split; [unfold is_u64, MAXINT, UINT64_LIMIT; lia|].
    split; [vm_compute; reflexivity|].
    split; [vm_compute; reflexivity|].
    vm_compute. reflexivity.
Qed.

(** Monotonicity of the health factor, shared by the properties below. *)
Lemma hf_le_mono (c1 c2 d p1 p2 : Z) :
  is_u64 c1 -> is_u64 c2 -> is_u64 d -> is_u64 p1 -> is_u64 p2 ->
  c1 <= c2 -> p1 <= p2 ->
  exists h1 h2, calculateHealthFactor c1 d p1 = Ok h1
    /\ calculateHealthFactor c2 d p2 = Ok h2 /\ h1 <= h2.
Proof.
  intros Hc1 Hc2 Hd Hp1 Hp2 Hc Hp.
  rewrite (hf_closed c1 d p1), (hf_closed c2 d p2) by assumption.
  do 2 eexists. split; [reflexivity|]. split; [reflexivity|].
  unfold is_u64 in *.
  destruct (Z.eqb_spec d 0); [lia|].
  apply Z.div_le_mono; [lia|].
  apply Z.mul_le_mono_nonneg_r; [lia|].
  apply Z.div_le_mono; [lia|].
  apply Z.mul_le_mono_nonneg_r; [lia|].
  apply Z.div_le_mono; [unfold UNIT_PRECISION; lia|].
  nia.
Qed.

Lemma hf_antitone (c d1 d2 p : Z) :
  is_u64 c -> is_u64 d2 -> is_u64 p -> 0 < d1 <= d2 ->
  exists h1 h2, calculateHealthFactor c d1 p = Ok h1
    /\ calculateHealthFactor c d2 p = Ok h2 /\ h2 <= h1.
Proof.
  intros Hc Hd2 Hp Hd.
  assert (Hd1 : is_u64 d1) by (unfold is_u64 in *; lia).
  rewrite (hf_closed c d1 p), (hf_closed c d2 p) by assumption.
  do 2 eexists. split; [reflexivity|]. split; [reflexivity|].
  destruct (Z.eqb_spec d1 0); [lia|]. destruct (Z.eqb_spec d2 0); [lia|].
  apply Z.div_le_compat_l; [|lia].
  unfold is_u64 in Hc, Hp.
  apply Z.mul_nonneg_nonneg; [apply usd_ratio_nonneg|]; lia.
Qed.

(** An empty vault has health factor [MAXINT] at every price. *)
Lemma hf_zero_zero (price : Z) : calculateHealthFactor 0 0 price = Ok MAXINT.
Proof.
  rewrite calculateHealthFactor_unfold.
  replace (fmul 0 price) with 0 by (unfold fmul; rewrite Z.mul_0_l; reflexivity).
  vm_compute. reflexivity.
Qed.

(** *** Ledger steps *)

Lemma send_mina_ok (w w' : World) (from to : address) (amount : Z) :
  send_mina w from to amount = Ok w' ->
  amount <= mina w from /\ vault w' = vault w /\ zkusd w' = zkusd w
  /\ forall x, mina w' x = mina w x - (if x =? from then amount else 0)
                                    + (if x =? to then amount else 0).
Proof.
  unfold send_mina, assert.
  destruct (Z.leb_spec amount (mina w from)); cbn [bind]; intros Hok; [|discriminate].
  injection Hok as <-. split; [assumption|]. split; [reflexivity|]. split; [reflexivity|].
  intros x. cbn [mina]. unfold upd.
  destruct (Z.eqb_spec x to), (Z.eqb_spec x from), (Z.eqb_spec to from);
    subst; cbv iota; lia.
Qed.

Lemma send_mina_succeeds (w : World) (from to : address) (amount : Z) :
  amount <= mina w from -> exists w', send_mina w from to amount = Ok w'.
Proof.
  intros H. unfold send_mina, assert. apply Z.leb_le in H. rewrite H.
  eexists; reflexivity.
Qed.

Lemma apply_update_mina (w w' : World) (u : Update) :
  apply_update w u = Ok w' ->
  vault w' = match u with TokenMint _ _ => set_flag (vault w) false | _ => vault w end
  /\ match u with SendMina from _ a => a <= mina w from | _ => True end
  /\ forall x, mina w' x = mina w x
       - match u with SendMina from _ a => if x =? from then a else 0 | _ => 0 end
       + match u with SendMina _ to a => if x =? to then a else 0 | _ => 0 end.
Proof.
  destruct u as [from to a|r a|o a]; cbn [apply_update]; intros H.
  - destruct (send_mina_ok w w' from to a H) as (Hle & Hv & _ & Hm).
    split; [exact Hv|]. split; [exact Hle|]. exact Hm.
  - unfold token_mint, assertInteractionFlag, assert in H.
    destruct (Bool.eqb (interactionFlag (vault w)) true); cbn [bind] in H;
      [|discriminate].
    injection H as <-. split; [reflexivity|]. split; [exact I|].
    intros; cbn [mina]; lia.
  - unfold token_burn, assert in H.
    destruct (a <=? zkusd w o); cbn [bind] in H; [|discriminate].
    injection H as <-. split; [reflexivity|]. split; [exact I|]. intros; cbn [mina]; lia.
Qed.

Lemma apply_updates_cons (w w' : World) (u : Update) (us : list Update) :
  apply_updates w (u :: us) = Ok w' ->
  exists w1, apply_update w u = Ok w1 /\ apply_updates w1 us = Ok w'.
Proof.
  cbn [apply_updates]. destruct (apply_update w u) as [w1|e]; cbn [bind]; intros H;
    [exists w1; split; [reflexivity | exact H] | discriminate].
Qed.

Lemma apply_updates_nil (w w' : World) : apply_updates w [] = Ok w' -> w' = w.
Proof. cbn [apply_updates]. intros H. injection H as <-. reflexivity. Qed.

Lemma transact_ok_inv (w w' : World) (m : MethodResult) :
  transact w m = Ok w' ->
  exists v us, m = Ok (v, us) /\ apply_updates (set_vault w v) us = Ok w'
    /\ vault w' = if mints us then set_flag v false else v.
Proof.
  unfold transact. destruct m as [[v us]|e]; cbn [bind]; intros H; [|discriminate].
  exists v, us. split; [reflexivity|]. split; [exact H|].
  apply apply_updates_vault in H. exact H.
Qed.

Lemma apply_one (w w' : World) (u : Update) :
  apply_updates w [u] = Ok w' -> apply_update w u = Ok w'.
Proof.
  intros H. destruct (apply_updates_cons w w' u [] H) as (w1 & H1 & H2).
  apply apply_updates_nil in H2. subst w1. exact H1.
Qed.

Lemma apply_two (w w' : World) (u1 u2 : Update) :
  apply_updates w [u1; u2] = Ok w' ->
  exists w1, apply_update w u1 = Ok w1 /\ apply_update w1 u2 = Ok w'.
Proof.
  intros H. destruct (apply_updates_cons w w' u1 [u2] H) as (w1 & H1 & H2).
  exists w1. split; [exact H1 | apply apply_one; exact H2].
Qed.

(** Case analysis on the address comparisons of a goal. *)
Ltac eqb_cases :=
  repeat match goal with
         | |- context [?a =? ?b] => destruct (Z.eqb_spec a b); cbv iota
         end.

(** Peels one successful step of a method off an equation [m = Ok _]. *)
Ltac peel_ok H :=
  cbn [bind] in H;
  lazymatch type of H with
  | bind (u64_check ?z) _ = Ok _ =>
      let E := fresh "E" in let U := fresh "U" in
      destruct (u64_check z) eqn:E; cbn [bind] in H;
      [apply u64_check_inv in E as [-> U] | discriminate H]
  | bind (if ?b then Ok tt else Err _) _ = Ok _ =>
      let E := fresh "E" in destruct b eqn:E; cbn [bind] in H; [|discriminate H]
  | bind (if ?b then Err _ else Ok _) _ = Ok _ =>
      let E := fresh "E" in destruct b eqn:E; cbn [bind] in H; [discriminate H|]
  | bind ?m _ = Ok _ =>
      let E := fresh "E" in destruct m eqn:E; cbn [bind] in H; [|discriminate H]
  end.

(** *** What a successful method did *)

Lemma depositCollateral_inv (hash : Z -> Z) (sender : address) (w : World)
  (amount secret : Z) (v : Vault) (us : list Update) :
  let s := vault w in
  depositCollateral hash sender w amount secret = Ok (v, us) ->
  0 < amount /\ ownershipHash s = hash secret /\ is_u64 (collateralAmount s + amount)
  /\ v = set_collateral s (collateralAmount s + amount)
  /\ us = [SendMina sender VAULT_ADDRESS amount].
Proof.
  intros s H. unfold depositCollateral, assert, u64_add in H. fold s in H.
  repeat peel_ok H. injection H as <- <-.
  match goal with
  | E1 : (0 <? amount) = true, E2 : (ownershipHash s =? hash secret) = true |- _ =>
      apply Z.ltb_lt in E1; apply Z.eqb_eq in E2
  end.
  split; [assumption|]. split; [assumption|]. split; [assumption|].
  split; reflexivity.
Qed.

Lemma depositCollateral_ok (hash : Z -> Z) (sender : address) (w : World)
  (amount secret : Z) :
  let s := vault w in
  0 < amount -> ownershipHash s = hash secret -> is_u64 (collateralAmount s + amount) ->
  depositCollateral hash sender w amount secret
  = Ok (set_collateral s (collateralAmount s + amount),
        [SendMina sender VAULT_ADDRESS amount]).
Proof.
  intros s Ha Hs Hu. unfold depositCollateral, assert, u64_add. fold s.
  replace (0 <? amount) with true by (symmetry; apply Z.ltb_lt; exact Ha).
  replace (ownershipHash s =? hash secret) with true
    by (symmetry; apply Z.eqb_eq; exact Hs).
  cbn [bind]. rewrite u64_check_ok by exact Hu. reflexivity.
Qed.

Lemma burnZkUsd_inv (hash : Z -> Z) (sender : address) (w : World)
  (amount secret : Z) (v : Vault) (us : list Update) :
  let s := vault w in
  burnZkUsd hash sender w amount secret = Ok (v, us) ->
  0 < amount /\ ownershipHash s = hash secret /\ amount <= debtAmount s
  /\ is_u64 (debtAmount s - amount)
  /\ v = set_debt s (debtAmount s - amount) /\ us = [TokenBurn sender amount].
Proof.
  intros s H. unfold burnZkUsd, assert, u64_sub in H. fold s in H.
  repeat peel_ok H. injection H as <- <-.
  match goal with
  | E1 : (0 <? amount) = true, E2 : (ownershipHash s =? hash secret) = true,
    E3 : (amount <=? debtAmount s) = true |- _ =>
      apply Z.ltb_lt in E1; apply Z.eqb_eq in E2; apply Z.leb_le in E3
  end.
  split; [assumption|]. split; [assumption|]. split; [assumption|].
  split; [assumption|]. split; reflexivity.
Qed.

Lemma redeemCollateral_inv_full (hash : Z -> Z) (sender : address)
  (price currentProtocolFee : Z) (w : World) (amount secret : Z)
  (v : Vault) (us : list Update) :
  let s := vault w in
  let sr := mina w VAULT_ADDRESS - collateralAmount s in
  let protocolFee := sr * currentProtocolFee / PROTOCOL_FEE_PRECISION in
  redeemCollateral hash sender price currentProtocolFee w amount secret = Ok (v, us) ->
  ownershipHash s = hash secret /\ amount <= collateralAmount s
  /\ is_u64 (collateralAmount s - amount)
  /\ is_u64 sr /\ is_u64 (sr * currentProtocolFee) /\ is_u64 (sr - protocolFee)
  /\ is_u64 (amount + (sr - protocolFee))
  /\ v = set_collateral s (collateralAmount s - amount)
  /\ us = [SendMina VAULT_ADDRESS PROTOCOL_VAULT_ADDRESS protocolFee;
           SendMina VAULT_ADDRESS sender (amount + (sr - protocolFee))].
Proof.
  intros s sr protocolFee H.
  unfold redeemCollateral, assert, u64_add, u64_sub, u64_mul, u64_div in H.
  fold s in H.
  repeat peel_ok H. injection H as <- <-.
  match goal with
  | E2 : (ownershipHash s =? hash secret) = true,
    E3 : (amount <=? collateralAmount s) = true |- _ =>
      apply Z.eqb_eq in E2; apply Z.leb_le in E3
  end.
  split; [assumption|]. split; [assumption|]. split; [assumption|].
  split; [assumption|]. split; [assumption|]. split; [assumption|].
  split; [assumption|]. split; reflexivity.
Qed.

(** *** Deployment *)

(** X1: a freshly deployed vault has health factor [MAXINT] at every price,
    so it can never be liquidated; its interaction flag is unset, so the
    token contract's check fails; a mint of any positive amount with the
    right secret is rejected with [HealthFactorTooLow]; and a deposit of a
    positive UInt64 amount succeeds exactly when the secret hashes to the
    hash of the secret given at deployment. *)
Theorem deploy_fresh_vault (hash : Z -> Z) (secret : Z) (m z : address -> Z) :
  let w := mkWorld (deploy hash secret) m z in
  (forall price, getHealthFactor price w = Ok MAXINT)
  /\ (forall sender price, liquidate sender price w = Err HealthFactorTooHigh)
  /\ assertInteractionFlag w = Err PreconditionFailed
  /\ (forall recipient amount secret' price,
        is_u64 price -> is_u64 amount -> 0 < amount -> hash secret' = hash secret ->
        mintZkUsd hash price w recipient amount secret' = Err HealthFactorTooLow)
  /\ (forall sender amount secret', is_u64 amount -> 0 < amount ->
        ((exists v us, depositCollateral hash sender w amount secret' = Ok (v, us))
         <-> hash secret' = hash secret)).
Proof.
  intros w. split; [|split; [|split; [|split]]].
  - intros price. apply hf_zero_zero.
  - intros sender price. unfold liquidate, assert. cbn [vault w deploy].
    cbn [collateralAmount debtAmount]. rewrite hf_zero_zero. reflexivity.
  - reflexivity.
  - intros recipient amount secret' price Hp Ha Ha0 Hs.
    unfold mintZkUsd, assert, u64_add, w, deploy.
    cbn [vault collateralAmount debtAmount ownershipHash].
    replace (0 <? amount) with true by (symmetry; apply Z.ltb_lt; exact Ha0).
    rewrite Hs, Z.eqb_refl. cbn [bind]. rewrite Z.add_0_l.
    rewrite u64_check_ok by exact Ha. cbn [bind].
    rewrite hf_closed by (exact Hp || exact Ha || (unfold is_u64, UINT64_LIMIT; lia)).
    destruct (Z.eqb_spec amount 0); [lia|].
    rewrite Z.mul_0_l. reflexivity.
  - intros sender amount secret' Ha Ha0. split.
    + intros (v & us & H).
      destruct (depositCollateral_inv hash sender w amount secret' v us H)
        as (_ & Hs & _).
      symmetry. exact Hs.
    + intros Hs. do 2 eexists.
      apply depositCollateral_ok; [exact Ha0 | symmetry; exact Hs |].
      exact Ha.
Qed.

(** *** Invariants of the vault state *)

(** X2: the stored collateral and debt stay UInt64 values: from a state
    where both are in range, every successful method leaves both in range. *)
Theorem methods_keep_u64_state (hash : Z -> Z) (sender : address)
  (price currentProtocolFee : Z) (w : World) :
  let s := vault w in
  is_u64 (collateralAmount s) -> is_u64 (debtAmount s) ->
  (forall amount secret v us,
     depositCollateral hash sender w amount secret = Ok (v, us) ->
     is_u64 (collateralAmount v) /\ is_u64 (debtAmount v))
  /\ (forall amount secret v us,
     redeemCollateral hash sender price currentProtocolFee w amount secret = Ok (v, us) ->
     is_u64 (collateralAmount v) /\ is_u64 (debtAmount v))
  /\ (forall recipient amount secret v us,
     mintZkUsd hash price w recipient amount secret = Ok (v, us) ->
     is_u64 (collateralAmount v) /\ is_u64 (debtAmount v))
  /\ (forall amount secret v us,
     burnZkUsd hash sender w amount secret = Ok (v, us) ->
     is_u64 (collateralAmount v) /\ is_u64 (debtAmount v))
  /\ (forall v us, liquidate sender price w = Ok (v, us) ->
     is_u64 (collateralAmount v) /\ is_u64 (debtAmount v)).
Proof.
  intros s Hc Hd. split; [|split; [|split; [|split]]].
  - intros amount secret v us H.
    destruct (depositCollateral_inv hash sender w amount secret v us H)
      as (_ & _ & Hu & -> & _).
    split; [exact Hu | exact Hd].
  - intros amount secret v us H.
    destruct (redeemCollateral_inv_full hash sender price currentProtocolFee w amount
                secret v us H) as (_ & _ & Hu & _ & _ & _ & _ & -> & _).
    split; [exact Hu | exact Hd].
  - intros recipient amount secret v us H.
    destruct (mintZkUsd_inv hash price w recipient amount secret v us H)
      as (_ & _ & Hu & _ & -> & _).
    split; [exact Hc | exact Hu].
  - intros amount secret v us H.
    destruct (burnZkUsd_inv hash sender w amount secret v us H)
      as (_ & _ & _ & Hu & -> & _).
    split; [exact Hc | exact Hu].
  - intros v us H.
    destruct (liquidate_inv sender price w v us H) as (_ & -> & _).
    unfold is_u64, UINT64_LIMIT. split; cbn [collateralAmount debtAmount]; lia.
Qed.

(** X9: at a fixed oracle price, a deposit never lowers the health factor,
    a burn keeps a healthy vault (health factor at least 100) healthy, and a
    successful mint or redemption always leaves the vault healthy. *)
Theorem owner_methods_keep_vault_healthy (hash : Z -> Z) (sender : address)
  (price currentProtocolFee : Z) (w : World) :
  let s := vault w in
  is_u64 (collateralAmount s) -> is_u64 (debtAmount s) -> is_u64 price ->
  (forall hf amount secret v us, getHealthFactor price w = Ok hf ->
     depositCollateral hash sender w amount secret = Ok (v, us) ->
     exists hf', getHealthFactor price (set_vault w v) = Ok hf' /\ hf <= hf')
  /\ (forall hf amount secret v us, getHealthFactor price w = Ok hf ->
     MIN_HEALTH_FACTOR <= hf ->
     burnZkUsd hash sender w amount secret = Ok (v, us) ->
     exists hf', getHealthFactor price (set_vault w v) = Ok hf'
                 /\ MIN_HEALTH_FACTOR <= hf')
  /\ (forall recipient amount secret v us,
     mintZkUsd hash price w recipient amount secret = Ok (v, us) ->
     exists hf', getHealthFactor price (set_vault w v) = Ok hf'
                 /\ MIN_HEALTH_FACTOR <= hf')
  /\ (forall amount secret v us,
     redeemCollateral hash sender price currentProtocolFee w amount secret = Ok (v, us) ->
     exists hf', getHealthFactor price (set_vault w v) = Ok hf'
                 /\ MIN_HEALTH_FACTOR <= hf').
Proof.
  intros s Hc Hd Hp. split; [|split; [|split]].
  - intros hf amount secret v us Hhf H.
    destruct (depositCollateral_inv hash sender w amount secret v us H)
      as (Ha & _ & Hu & -> & _).
    unfold getHealthFactor in *. fold s in Hhf. cbn [vault set_vault set_collateral
      collateralAmount debtAmount].
    destruct (hf_le_mono (collateralAmount s) (collateralAmount s + amount)
                (debtAmount s) price price Hc Hu Hd Hp Hp ltac:(lia) ltac:(lia))
      as (h1 & h2 & E1 & E2 & Hle).
    rewrite Hhf in E1. injection E1 as <-. exists h2. split; [exact E2 | exact Hle].
  - intros hf amount secret v us Hhf Hmin H.
    destruct (burnZkUsd_inv hash sender w amount secret v us H)
      as (Ha & _ & Hle & Hu & -> & _).
    fold s in Hle, Hu.
    unfold getHealthFactor in *. fold s in Hhf. cbn [vault set_vault set_debt
      collateralAmount debtAmount]. fold s.
    destruct (Z.eqb_spec (debtAmount s - amount) 0) as [E|E].
    + rewrite E. rewrite hf_closed; [| exact Hc | unfold is_u64, UINT64_LIMIT; lia | exact Hp].
      eexists. split; [reflexivity|]. cbn [Z.eqb].
      unfold MAXINT, UINT64_LIMIT, MIN_HEALTH_FACTOR. lia.
    + destruct (hf_antitone (collateralAmount s) (debtAmount s - amount) (debtAmount s)
                  price Hc Hd Hp ltac:(unfold is_u64 in Hu; lia))
        as (h1 & h2 & E1 & E2 & Hle').
      rewrite Hhf in E2. injection E2 as <-. exists h1. split; [exact E1 | lia].
  - intros recipient amount secret v us H.
    destruct (mintZkUsd_inv hash price w recipient amount secret v us H)
      as (_ & _ & _ & (hf & Hhf & Hmin) & -> & _).
    exists hf. split; [exact Hhf | apply Hmin].
  - intros amount secret v us H.
    destruct (redeemCollateral_inv hash sender price currentProtocolFee w amount secret
                v us H) as (_ & _ & _ & (hf & Hhf & Hmin) & ->).
    exists hf. split; [exact Hhf | apply Hmin].
Qed.

(** *** MINA accounting *)

(** Destructs the MINA transfer a goal is waiting on. *)
Ltac case_send E :=
  match goal with
  | |- context [send_mina ?x ?f ?t ?a] => destruct (send_mina x f t a) eqn:E
  | H : context [send_mina ?x ?f ?t ?a] |- _ => destruct (send_mina x f t a) eqn:E
  end.

(** X10: the vault's MINA balance always covers its recorded collateral. It
    holds at deployment; deposits, mints, burns and plain transfers of MINA
    into the vault keep it; a liquidation restores it, since the vault must
    pay out the whole collateral; and after a redemption the balance equals
    the remaining collateral exactly, all staking rewards being paid out. *)
Theorem collateral_backed_invariant (hash : Z -> Z) :
  (forall secret m z, 0 <= m VAULT_ADDRESS ->
     collateral_backed (mkWorld (deploy hash secret) m z))
  /\ (forall sender w amount secret w', sender <> VAULT_ADDRESS ->
     collateral_backed w ->
     transact w (depositCollateral hash sender w amount secret) = Ok w' ->
     collateral_backed w')
  /\ (forall sender price fee w amount secret w', sender <> VAULT_ADDRESS ->
     transact w (redeemCollateral hash sender price fee w amount secret) = Ok w' ->
     mina w' VAULT_ADDRESS = collateralAmount (vault w'))
  /\ (forall price w recipient amount secret w', collateral_backed w ->
     transact w (mintZkUsd hash price w recipient amount secret) = Ok w' ->
     collateral_backed w')
  /\ (forall sender w amount secret w', collateral_backed w ->
     transact w (burnZkUsd hash sender w amount secret) = Ok w' ->
     collateral_backed w')
  /\ (forall sender price w w', sender <> VAULT_ADDRESS ->
     transact w (liquidate sender price w) = Ok w' -> collateral_backed w')
  /\ (forall from w amount w', from <> VAULT_ADDRESS -> 0 <= amount ->
     collateral_backed w -> send_mina w from VAULT_ADDRESS amount = Ok w' ->
     collateral_backed w').
Proof.
  unfold collateral_backed.
  split; [|split; [|split; [|split; [|split; [|split]]]]].
  - intros secret m z Hm. unfold deploy. cbn [vault collateralAmount mina]. exact Hm.
  - intros sender w amount secret w' Hsv Hb H.
    destruct (transact_ok_inv _ _ _ H) as (v & us & Hd & Hap & Hv).
    destruct (depositCollateral_inv hash sender w amount secret v us Hd)
      as (_ & _ & _ & -> & ->).
    apply apply_one in Hap. apply apply_update_mina in Hap as (_ & _ & Hm).
    cbn [mints set_flag] in Hv. rewrite Hv, Hm. cbn [mina set_vault set_collateral collateralAmount].
    eqb_cases; lia.
  - intros sender price fee w amount secret w' Hsv H.
    destruct (transact_ok_inv _ _ _ H) as (v & us & Hd & Hap & Hv).
    destruct (redeemCollateral_inv_full hash sender price fee w amount secret v us Hd)
      as (_ & _ & _ & _ & _ & _ & _ & -> & ->).
    apply apply_two in Hap as (w1 & Hap1 & Hap2).
    apply apply_update_mina in Hap1 as (_ & _ & Hm1).
    apply apply_update_mina in Hap2 as (_ & _ & Hm2).
    cbn [mints set_flag] in Hv. rewrite Hv, Hm2, Hm1. cbn [mina set_vault set_collateral collateralAmount].
    unfold PROTOCOL_VAULT_ADDRESS, VAULT_ADDRESS in *. eqb_cases; lia.
  - intros price w recipient amount secret w' Hb H.
    destruct (transact_ok_inv _ _ _ H) as (v & us & Hd & Hap & Hv).
    destruct (mintZkUsd_inv hash price w recipient amount secret v us Hd)
      as (_ & _ & _ & _ & -> & ->).
    apply apply_one in Hap. apply apply_update_mina in Hap as (_ & _ & Hm).
    cbn [mints] in Hv. unfold set_flag in Hv. rewrite Hv, Hm. cbn [mina set_vault collateralAmount]. lia.
  - intros sender w amount secret w' Hb H.
    destruct (transact_ok_inv _ _ _ H) as (v & us & Hd & Hap & Hv).
    destruct (burnZkUsd_inv hash sender w amount secret v us Hd)
      as (_ & _ & _ & _ & -> & ->).
    apply apply_one in Hap. apply apply_update_mina in Hap as (_ & _ & Hm).
    cbn [mints set_flag] in Hv. rewrite Hv, Hm. cbn [mina set_vault set_debt collateralAmount]. lia.
  - intros sender price w w' Hsv H.
    destruct (transact_ok_inv _ _ _ H) as (v & us & Hd & Hap & Hv).
    destruct (liquidate_inv sender price w v us Hd) as (_ & -> & ->).
    apply apply_two in Hap as (w1 & Hap1 & Hap2).
    apply apply_update_mina in Hap1 as (_ & Hle & Hm1).
    apply apply_update_mina in Hap2 as (_ & _ & Hm2).
    cbn [mints set_flag] in Hv. rewrite Hv, Hm2, Hm1. cbn [mina set_vault collateralAmount] in *.
    eqb_cases; lia.
  - intros from w amount w' Hf Ha Hb H.
    destruct (send_mina_ok w w' from VAULT_ADDRESS amount H) as (_ & Hv & _ & Hm).
    cbn [mints set_flag] in Hv. rewrite Hv, Hm. eqb_cases; lia.
Qed.

(** X11: a successful redemption pays the protocol vault exactly
    [floor(stakingRewards * fee / 100)], where the staking rewards are the
    vault's balance minus its collateral, and this fee is between 0 and the
    staking rewards; the caller receives the amount plus the rest of the
    staking rewards, the vault keeps exactly its new collateral
    [collateralAmount - amount], and no other account's MINA changes. *)
Theorem redeemCollateral_accounting (hash : Z -> Z) (sender : address)
  (price currentProtocolFee : Z) (w w' : World) (amount secret : Z) :
  let s := vault w in
  let stakingRewards := mina w VAULT_ADDRESS - collateralAmount s in
  let protocolFee := stakingRewards * currentProtocolFee / PROTOCOL_FEE_PRECISION in
  sender <> VAULT_ADDRESS -> sender <> PROTOCOL_VAULT_ADDRESS ->
  transact w (redeemCollateral hash sender price currentProtocolFee w amount secret)
  = Ok w' ->
  collateralAmount (vault w') = collateralAmount s - amount
  /\ mina w' VAULT_ADDRESS = collateralAmount s - amount
  /\ 0 <= protocolFee <= stakingRewards
  /\ mina w' PROTOCOL_VAULT_ADDRESS = mina w PROTOCOL_VAULT_ADDRESS + protocolFee
  /\ mina w' sender = mina w sender + amount + (stakingRewards - protocolFee)
  /\ (forall x, x <> VAULT_ADDRESS -> x <> PROTOCOL_VAULT_ADDRESS -> x <> sender ->
      mina w' x = mina w x).
Proof.
  intros s sr pf Hsv Hsp H. unfold pf, sr, s.
  destruct (transact_ok_inv _ _ _ H) as (v & us & Hd & Hap & Hv).
  destruct (redeemCollateral_inv_full hash sender price currentProtocolFee w amount
              secret v us Hd) as (_ & _ & _ & Hsr & Hft & Hdv & _ & -> & ->).
  apply apply_two in Hap as (w1 & Hap1 & Hap2).
  apply apply_update_mina in Hap1 as (_ & _ & Hm1).
  apply apply_update_mina in Hap2 as (_ & _ & Hm2).
  cbn [mina set_vault] in Hm1.
  cbn [mints] in Hv. rewrite Hv. cbn [set_collateral collateralAmount].
  unfold is_u64 in Hsr, Hft, Hdv.
  assert (Hpf : 0 <= (mina w VAULT_ADDRESS - collateralAmount (vault w))
                     * currentProtocolFee / PROTOCOL_FEE_PRECISION).
  { apply Z.div_pos; [lia | unfold PROTOCOL_FEE_PRECISION; lia]. }
  unfold PROTOCOL_VAULT_ADDRESS, VAULT_ADDRESS in *.
  split; [reflexivity|].
  split; [rewrite Hm2, Hm1; eqb_cases; lia|].
  split; [lia|].
  split; [rewrite Hm2, Hm1; eqb_cases; lia|].
  split; [rewrite Hm2, Hm1; eqb_cases; lia|].
  intros x Hx1 Hx2 Hx3. rewrite Hm2, Hm1. eqb_cases; lia.
Qed.

(** X12: once its own checks pass (positive amount, right secret, new
    collateral within UInt64), a deposit succeeds exactly when the caller
    holds the amount in MINA, and otherwise fails with [InsufficientMina];
    a successful deposit moves exactly the amount from the caller to the
    vault and changes no other balance. *)
Theorem depositCollateral_transfer (hash : Z -> Z) (sender : address) (w : World)
  (amount secret : Z) :
  let s := vault w in
  sender <> VAULT_ADDRESS -> 0 < amount -> ownershipHash s = hash secret ->
  is_u64 (collateralAmount s + amount) ->
  ((exists w', transact w (depositCollateral hash sender w amount secret) = Ok w')
   <-> amount <= mina w sender)
  /\ (mina w sender < amount ->
      transact w (depositCollateral hash sender w amount secret) = Err InsufficientMina)
  /\ (forall w', transact w (depositCollateral hash sender w amount secret) = Ok w' ->
      mina w' sender = mina w sender - amount
      /\ mina w' VAULT_ADDRESS = mina w VAULT_ADDRESS + amount
      /\ forall x, x <> sender -> x <> VAULT_ADDRESS -> mina w' x = mina w x).
Proof.
  intros s Hsv Ha Hs Hu.
  unfold transact. rewrite (depositCollateral_ok hash sender w amount secret Ha Hs Hu).
  cbn [bind apply_updates apply_update]. fold s.
  split; [|split].
  - split.
    + intros [w' H]. case_send E; cbn [bind] in H; [|discriminate].
      destruct (send_mina_ok _ _ _ _ _ E) as (Hle & _). exact Hle.
    + intros Hle.
      destruct (send_mina_succeeds
                  (set_vault w (set_collateral s (collateralAmount s + amount)))
                  sender VAULT_ADDRESS amount Hle) as [w1 E].
      rewrite E. eexists; reflexivity.
  - intros Hlt. unfold send_mina, assert. cbn [mina set_vault].
    replace (amount <=? mina w sender) with false
      by (symmetry; apply Z.leb_gt; exact Hlt).
    reflexivity.
  - intros w' H. case_send E; cbn [bind] in H; [|discriminate].
    injection H as <-. destruct (send_mina_ok _ _ _ _ _ E) as (_ & _ & _ & Hm).
    cbn [mina set_vault] in Hm.
    split; [|split].
    + rewrite Hm. eqb_cases; lia.
    + rewrite Hm. eqb_cases; lia.
    + intros x Hx1 Hx2. rewrite Hm. eqb_cases; lia.
Qed.

(** X13: every method changes the debt by exactly the net amount of zkUSD
    it asks the token ledger to create: minted amounts minus burned
    amounts. Deposits and redemptions request no token operation (every
    update they request is a MINA transfer) and leave the debt unchanged. *)
Theorem debt_tracks_token_updates (hash : Z -> Z) :
  (forall sender w amount secret v us,
     depositCollateral hash sender w amount secret = Ok (v, us) ->
     debtAmount v = debtAmount (vault w) + token_delta us
     /\ debtAmount v = debtAmount (vault w)
     /\ Forall (fun u => exists f t a, u = SendMina f t a) us)
  /\ (forall sender price fee w amount secret v us,
     redeemCollateral hash sender price fee w amount secret = Ok (v, us) ->
     debtAmount v = debtAmount (vault w) + token_delta us
     /\ debtAmount v = debtAmount (vault w)
     /\ Forall (fun u => exists f t a, u = SendMina f t a) us)
  /\ (forall price w recipient amount secret v us,
     mintZkUsd hash price w recipient amount secret = Ok (v, us) ->
     debtAmount v = debtAmount (vault w) + token_delta us)
  /\ (forall sender w amount secret v us,
     burnZkUsd hash sender w amount secret = Ok (v, us) ->
     debtAmount v = debtAmount (vault w) + token_delta us)
  /\ (forall sender price w v us, liquidate sender price w = Ok (v, us) ->
     debtAmount v = debtAmount (vault w) + token_delta us).
Proof.
  split; [|split; [|split; [|split]]].
  - intros sender w amount secret v us H.
    destruct (depositCollateral_inv hash sender w amount secret v us H)
      as (_ & _ & _ & -> & ->).
    cbn [token_delta set_collateral debtAmount].
    split; [lia|]. split; [reflexivity|]. repeat econstructor.
  - intros sender price fee w amount secret v us H.
    destruct (redeemCollateral_inv_full hash sender price fee w amount secret v us H)
      as (_ & _ & _ & _ & _ & _ & _ & -> & ->).
    cbn [token_delta set_collateral debtAmount].
    split; [lia|]. split; [reflexivity|]. repeat econstructor.
  - intros price w recipient amount secret v us H.
    destruct (mintZkUsd_inv hash price w recipient amount secret v us H)
      as (_ & _ & _ & _ & -> & ->).
    cbn [token_delta debtAmount]. lia.
  - intros sender w amount secret v us H.
    destruct (burnZkUsd_inv hash sender w amount secret v us H)
      as (_ & _ & _ & _ & -> & ->).
    cbn [token_delta set_debt debtAmount]. lia.
  - intros sender price w v us H.
    destruct (liquidate_inv sender price w v us H) as (_ & -> & ->).
    cbn [token_delta debtAmount]. lia.
Qed.

(** *** Composition and the life cycle of a vault *)

(** X14: two successful deposits of [a] and then [b] by the same caller with
    the same secret give the same vault and the same MINA balances as one
    deposit of [a + b], which then also succeeds. *)
Theorem depositCollateral_compose (hash : Z -> Z) (sender : address)
  (w w1 w2 : World) (a b secret : Z) :
  sender <> VAULT_ADDRESS ->
  transact w (depositCollateral hash sender w a secret) = Ok w1 ->
  transact w1 (depositCollateral hash sender w1 b secret) = Ok w2 ->
  exists w3, transact w (depositCollateral hash sender w (a + b) secret) = Ok w3
    /\ vault w3 = vault w2 /\ (forall x, mina w3 x = mina w2 x).
Proof.
  intros Hsv H1 H2.
  destruct (transact_ok_inv _ _ _ H1) as (v1 & us1 & Hd1 & Hap1 & Hv1).
  destruct (depositCollateral_inv hash sender w a secret v1 us1 Hd1)
    as (Ha & Hs & Hu1 & -> & ->).
  apply apply_one in Hap1. apply apply_update_mina in Hap1 as (_ & Hle1 & Hm1).
  destruct (transact_ok_inv _ _ _ H2) as (v2 & us2 & Hd2 & Hap2 & Hv2).
  destruct (depositCollateral_inv hash sender w1 b secret v2 us2 Hd2)
    as (Hb & _ & Hu2 & -> & ->).
  apply apply_one in Hap2. apply apply_update_mina in Hap2 as (_ & Hle2 & Hm2).
  cbn [mints] in Hv1, Hv2. rewrite Hv1 in Hu2, Hv2.
  cbn [mina set_vault set_collateral collateralAmount debtAmount ownershipHash
       interactionFlag] in *.
  assert (Hab : 0 < a + b) by lia.
  assert (Hu : is_u64 (collateralAmount (vault w) + (a + b)))
    by (unfold is_u64 in *; lia).
  assert (Hle : a + b <= mina w sender)
    by (revert Hle2; rewrite Hm1; eqb_cases; lia).
  unfold transact. rewrite (depositCollateral_ok hash sender w (a + b) secret Hab Hs Hu).
  cbn [bind apply_updates apply_update].
  destruct (send_mina_succeeds
              (set_vault w (set_collateral (vault w) (collateralAmount (vault w) + (a + b))))
              sender VAULT_ADDRESS (a + b) Hle) as [w3 E].
  rewrite E. exists w3. split; [reflexivity|].
  destruct (send_mina_ok _ _ _ _ _ E) as (_ & Hv3 & _ & Hm3).
  cbn [mina set_vault vault] in Hv3, Hm3.
  split.
  - rewrite Hv3, Hv2. unfold set_collateral. f_equal. lia.
  - intros x. rewrite Hm3, Hm2, Hm1. eqb_cases; lia.
Qed.

(** X15: right after a successful mint of [amount], burning the same amount
    with the same secret succeeds and brings the vault back to its state
    before the mint, except for the interaction flag, which is now clear:
    the mint set it and the token ledger's mint consumed it in the same
    transaction. *)
Theorem mintZkUsd_then_burnZkUsd (hash : Z -> Z) (price : Z) (w w1 : World)
  (recipient sender : address) (amount secret : Z) :
  is_u64 (debtAmount (vault w)) ->
  transact w (mintZkUsd hash price w recipient amount secret) = Ok w1 ->
  burnZkUsd hash sender w1 amount secret
  = Ok (set_flag (vault w) false, [TokenBurn sender amount]).
Proof.
  intros Hd H.
  destruct (transact_ok_inv _ _ _ H) as (v & us & Hm & _ & Hv).
  destruct (mintZkUsd_inv hash price w recipient amount secret v us Hm)
    as (Ha & Hs & Hu & _ & -> & ->).
  cbn [mints] in Hv. unfold set_flag in Hv.
  unfold burnZkUsd, assert, u64_sub. rewrite Hv.
  cbn [ownershipHash debtAmount].
  replace (0 <? amount) with true by (symmetry; apply Z.ltb_lt; exact Ha).
  replace (ownershipHash (vault w) =? hash secret) with true
    by (symmetry; apply Z.eqb_eq; exact Hs).
  replace (amount <=? debtAmount (vault w) + amount) with true
    by (symmetry; apply Z.leb_le; unfold is_u64 in Hd; lia).
  cbn [bind].
  replace (debtAmount (vault w) + amount - amount) with (debtAmount (vault w)) by lia.
  rewrite u64_check_ok by exact Hd.
  reflexivity.
Qed.

(** X16: a successful liquidation leaves the vault with no collateral and
    no debt, its commitment and flag unchanged; its health factor is then
    [UInt64.MAXINT] at every price, so a second liquidation fails with
    [HealthFactorTooHigh]. *)
Theorem liquidate_final (sender : address) (price : Z) (w w' : World) :
  transact w (liquidate sender price w) = Ok w' ->
  vault w' = mkVault 0 0 (ownershipHash (vault w)) (interactionFlag (vault w))
  /\ (forall price', getHealthFactor price' w' = Ok MAXINT)
  /\ (forall sender' price', liquidate sender' price' w' = Err HealthFactorTooHigh).
Proof.
  intros H.
  destruct (transact_ok_inv _ _ _ H) as (v & us & Hd & _ & Hv).
  destruct (liquidate_inv sender price w v us Hd) as (_ & -> & ->).
  cbn [mints] in Hv.
  assert (Hp : forall p, getHealthFactor p w' = Ok MAXINT).
  { intros p. unfold getHealthFactor. rewrite Hv.
    cbn [collateralAmount debtAmount]. apply hf_zero_zero. }
  split; [exact Hv|]. split; [exact Hp|].
  intros sender' price'. unfold liquidate, assert.
  specialize (Hp price'). unfold getHealthFactor in Hp. rewrite Hp.
  reflexivity.
Qed.

(** X17: the interaction flag that [mintZkUsd] sets does not outlive its
    transaction: the token ledger's mint consumes it through
    [assertInteractionFlag]. After a successful mint transaction the flag is
    clear, so [assertInteractionFlag] fails with [PreconditionFailed], and so
    does any further mint of the token ledger until the vault approves one
    again. *)
Theorem interactionFlag_one_shot (hash : Z -> Z) (price : Z) (w w1 : World)
  (recipient : address) (amount secret : Z) :
  transact w (mintZkUsd hash price w recipient amount secret) = Ok w1 ->
  interactionFlag (vault w1) = false
  /\ assertInteractionFlag w1 = Err PreconditionFailed
  /\ (forall r a, apply_update w1 (TokenMint r a) = Err PreconditionFailed).
Proof.
  intros H.
  destruct (transact_ok_inv _ _ _ H) as (v & us & Hm & _ & Hv).
  destruct (mintZkUsd_inv hash price w recipient amount secret v us Hm)
    as (_ & _ & _ & _ & -> & ->).
  cbn [mints] in Hv. unfold set_flag in Hv.
  split; [rewrite Hv; reflexivity|].
  split; [unfold assertInteractionFlag, assert; rewrite Hv; reflexivity|].
  intros r a. cbn [apply_update]. unfold token_mint, assertInteractionFlag, assert.
  rewrite Hv. reflexivity.
Qed.

(** X18: with a secret whose hash is not the vault's commitment, no owner
    method succeeds: deposit, redeem, mint and burn all return an error,
    whatever the other arguments. *)
Theorem wrong_secret_rejected (hash : Z -> Z) (w : World) (secret : Z) :
  ownershipHash (vault w) <> hash secret ->
  (forall sender amount,
     exists e, depositCollateral hash sender w amount secret = Err e)
  /\ (forall sender price fee amount,
     exists e, redeemCollateral hash sender price fee w amount secret = Err e)
  /\ (forall price recipient amount,
     exists e, mintZkUsd hash price w recipient amount secret = Err e)
  /\ (forall sender amount,
     exists e, burnZkUsd hash sender w amount secret = Err e).
Proof.
  intros Hne. split; [|split; [|split]].
  - intros sender amount.
    destruct (depositCollateral hash sender w amount secret) as [[v us]|e] eqn:E;
      [|eexists; reflexivity].
    exfalso. apply Hne.
    destruct (depositCollateral_inv hash sender w amount secret v us E) as (_ & Hs & _).
    exact Hs.
  - intros sender price fee amount.
    destruct (redeemCollateral hash sender price fee w amount secret) as [[v us]|e] eqn:E;
      [|eexists; reflexivity].
    exfalso. apply Hne.
    destruct (redeemCollateral_inv_full hash sender price fee w amount secret v us E)
      as (Hs & _). exact Hs.
  - intros price recipient amount.
    destruct (mintZkUsd hash price w recipient amount secret) as [[v us]|e] eqn:E;
      [|eexists; reflexivity].
    exfalso. apply Hne.
    destruct (mintZkUsd_inv hash price w recipient amount secret v us E) as (_ & Hs & _).
    exact Hs.
  - intros sender amount.
    destruct (burnZkUsd hash sender w amount secret) as [[v us]|e] eqn:E;
      [|eexists; reflexivity].
    exfalso. apply Hne.
    destruct (burnZkUsd_inv hash sender w amount secret v us E) as (_ & Hs & _).
    exact Hs.
Qed.

(** X19: no method changes the vault's ownership commitment. The
    interaction flag is set only by a mint and cleared only by
    [assertInteractionFlag], which the token ledger's mint calls within the
    mint's own transaction, so a successful mint transaction ends with the
    flag clear; deposits, redemptions, burns and liquidations leave it as it
    was. *)
Theorem commitment_and_flag_kept (hash : Z -> Z) :
  (forall sender w amount secret w',
     transact w (depositCollateral hash sender w amount secret) = Ok w' ->
     ownershipHash (vault w') = ownershipHash (vault w)
     /\ interactionFlag (vault w') = interactionFlag (vault w))
  /\ (forall sender price fee w amount secret w',
     transact w (redeemCollateral hash sender price fee w amount secret) = Ok w' ->
     ownershipHash (vault w') = ownershipHash (vault w)
     /\ interactionFlag (vault w') = interactionFlag (vault w))
  /\ (forall price w recipient amount secret w',
     transact w (mintZkUsd hash price w recipient amount secret) = Ok w' ->
     ownershipHash (vault w') = ownershipHash (vault w)
     /\ interactionFlag (vault w') = false)
  /\ (forall sender w amount secret w',
     transact w (burnZkUsd hash sender w amount secret) = Ok w' ->
     ownershipHash (vault w') = ownershipHash (vault w)
     /\ interactionFlag (vault w') = interactionFlag (vault w))
  /\ (forall sender price w w',
     transact w (liquidate sender price w) = Ok w' ->
     ownershipHash (vault w') = ownershipHash (vault w)
     /\ interactionFlag (vault w') = interactionFlag (vault w))
  /\ (forall w v b, assertInteractionFlag w = Ok (v, b) ->
     ownershipHash v = ownershipHash (vault w) /\ interactionFlag v = false).
Proof.
  split; [|split; [|split; [|split; [|split]]]].
  - intros sender w amount secret w' H.
    destruct (transact_ok_inv _ _ _ H) as (v & us & Hd & _ & Hv).
    destruct (depositCollateral_inv hash sender w amount secret v us Hd)
      as (_ & _ & _ & -> & ->).
    cbn [mints] in Hv. rewrite Hv. split; reflexivity.
  - intros sender price fee w amount secret w' H.
    destruct (transact_ok_inv _ _ _ H) as (v & us & Hd & _ & Hv).
    destruct (redeemCollateral_inv_full hash sender price fee w amount secret v us Hd)
      as (_ & _ & _ & _ & _ & _ & _ & -> & ->).
    cbn [mints] in Hv. rewrite Hv. split; reflexivity.
  - intros price w recipient amount secret w' H.
    destruct (transact_ok_inv _ _ _ H) as (v & us & Hd & _ & Hv).
    destruct (mintZkUsd_inv hash price w recipient amount secret v us Hd)
      as (_ & _ & _ & _ & -> & ->).
    cbn [mints] in Hv. rewrite Hv. split; reflexivity.
  - intros sender w amount secret w' H.
    destruct (transact_ok_inv _ _ _ H) as (v & us & Hd & _ & Hv).
    destruct (burnZkUsd_inv hash sender w amount secret v us Hd)
      as (_ & _ & _ & _ & -> & ->).
    cbn [mints] in Hv. rewrite Hv. split; reflexivity.
  - intros sender price w w' H.
    destruct (transact_ok_inv _ _ _ H) as (v & us & Hd & _ & Hv).
    destruct (liquidate_inv sender price w v us Hd) as (_ & -> & ->).
    cbn [mints] in Hv. rewrite Hv. split; reflexivity.
  - intros w v b H. unfold assertInteractionFlag, assert in H.
    destruct (Bool.eqb (interactionFlag (vault w)) true); cbn [bind] in H;
      [|discriminate].
    injection H as <- _. split; reflexivity.
Qed.

(** *** The properties on a concrete ledger *)

(** Discharges a side condition on concrete values. *)
Ltac lit :=
  unfold is_u64, UINT64_LIMIT, MAXINT, collateral_backed, demo_world,
    VAULT_ADDRESS, PROTOCOL_VAULT_ADDRESS in *;
  cbn in *; lia.

Lemma deploy_fresh_vault_witness :
  mintZkUsd (fun x => x) 2000000000
    (mkWorld (deploy (fun x => x) 5) (fun _ => 0) (fun _ => 0)) 10 1000 5
  = Err HealthFactorTooLow.
Proof.
  destruct (deploy_fresh_vault (fun x => x) 5 (fun _ => 0) (fun _ => 0))
    as (_ & _ & _ & Hm & _).
  apply Hm; [lit | lit | lia | reflexivity].
Defined.

Lemma methods_keep_u64_state_witness :
  is_u64 (collateralAmount (mkVault 1500000000 1000001000 5 true))
  /\ is_u64 (debtAmount (mkVault 1500000000 1000001000 5 true)).
Proof.
  destruct (methods_keep_u64_state (fun x => x) 10 2000000000 10 demo_world
              ltac:(lit) ltac:(lit)) as (_ & _ & Hm & _).
  apply (Hm 10 1000 5 _ [TokenMint 10 1000]). vm_compute. reflexivity.
Defined.

Lemma getHealthFactor_healthy_iff_witness :
  exists hf, getHealthFactor 2000000000 demo_world = Ok hf
    /\ (MIN_HEALTH_FACTOR <= hf
        <-> debtAmount (vault demo_world)
            <= collateralAmount (vault demo_world) * 2000000000
               / UNIT_PRECISION * 100 / 150).
Proof.
  exact (getHealthFactor_healthy_iff 2000000000 demo_world
           ltac:(lit) ltac:(lit) ltac:(lit)).
Defined.

Lemma getHealthFactor_liquidatable_iff_witness :
  exists hf, getHealthFactor 1000000000 demo_world = Ok hf
    /\ (hf <= MIN_HEALTH_FACTOR
        <-> 0 < debtAmount (vault demo_world)
            /\ 100 * (collateralAmount (vault demo_world) * 1000000000
                      / UNIT_PRECISION * 100 / 150)
               < 101 * debtAmount (vault demo_world)).
Proof.
  exact (getHealthFactor_liquidatable_iff 1000000000 demo_world
           ltac:(lit) ltac:(lit) ltac:(lit)).
Defined.

Lemma mintZkUsd_capacity_witness :
  (exists v us, mintZkUsd (fun x => x) 2000000000 demo_world 10 1000 5 = Ok (v, us))
  <-> debtAmount (vault demo_world) + 1000
      <= collateralAmount (vault demo_world) * 2000000000 / UNIT_PRECISION * 100 / 150
      /\ collateralAmount (vault demo_world) * 2000000000 / UNIT_PRECISION * 100 / 150
         * 100 / (debtAmount (vault demo_world) + 1000)
         < UINT64_LIMIT + MIN_HEALTH_FACTOR.
Proof.
  exact (mintZkUsd_capacity (fun x => x) 2000000000 demo_world 10 1000 5
           ltac:(lit) ltac:(lit) ltac:(lit) ltac:(lia) eq_refl ltac:(lit)).
Defined.

Lemma redeemCollateral_capacity_witness :
  (exists v us,
     redeemCollateral (fun x => x) 10 2000000000 10 demo_world 100 5 = Ok (v, us))
  <-> debtAmount (vault demo_world)
      <= (collateralAmount (vault demo_world) - 100) * 2000000000
         / UNIT_PRECISION * 100 / 150
      /\ (0 < debtAmount (vault demo_world) ->
          (collateralAmount (vault demo_world) - 100) * 2000000000
          / UNIT_PRECISION * 100 / 150 * 100 / debtAmount (vault demo_world)
          < UINT64_LIMIT + MIN_HEALTH_FACTOR).
Proof.
  exact (redeemCollateral_capacity (fun x => x) 10 2000000000 10 demo_world 100 5
           ltac:(lit) ltac:(lit) ltac:(lit) ltac:(lit) ltac:(lit) ltac:(lit)
           eq_refl ltac:(lit) ltac:(lit) ltac:(lia) ltac:(lit)).
Defined.

Lemma calculateHealthFactor_monotone_witness :
  exists h1 h2, calculateHealthFactor 1000000000 1000000000 1000000000 = Ok h1
    /\ calculateHealthFactor 2000000000 1000000000 2000000000 = Ok h2 /\ h1 <= h2.
Proof.
  exact (calculateHealthFactor_monotone 1000000000 2000000000 1000000000
           1000000000 2000000000 ltac:(lit) ltac:(lit) ltac:(lit) ltac:(lit)
           ltac:(lit) ltac:(lia) ltac:(lia)).
Defined.

Lemma calculateHealthFactor_antitone_debt_witness :
  exists h1 h2, calculateHealthFactor 1500000000 1000000000 2000000000 = Ok h1
    /\ calculateHealthFactor 1500000000 2000000000 2000000000 = Ok h2 /\ h2 <= h1.
Proof.
  exact (proj1 (calculateHealthFactor_antitone_debt 1500000000 1000000000 2000000000
                  2000000000 ltac:(lit) ltac:(lit) ltac:(lit) ltac:(lia))).
Defined.

Lemma owner_methods_keep_vault_healthy_witness :
  exists hf', getHealthFactor 2000000000
                (set_vault demo_world (mkVault 1500000000 1000001000 5 true)) = Ok hf'
    /\ MIN_HEALTH_FACTOR <= hf'.
Proof.
  destruct (owner_methods_keep_vault_healthy (fun x => x) 10 2000000000 10 demo_world
              ltac:(lit) ltac:(lit) ltac:(lit)) as (_ & _ & Hm & _).
  apply (Hm 10 1000 5 _ [TokenMint 10 1000]). vm_compute. reflexivity.
Defined.

Lemma collateral_backed_invariant_witness :
  collateral_backed
    (result_world (transact demo_world (depositCollateral (fun x => x) 10 demo_world 7 5))).
Proof.
  destruct (collateral_backed_invariant (fun x => x)) as (_ & Hd & _).
  apply (Hd 10 demo_world 7 5); [lit | lit | vm_compute; reflexivity].
Defined.

Lemma redeemCollateral_accounting_witness :
  mina (result_world (transact demo_world
          (redeemCollateral (fun x => x) 10 2000000000 10 demo_world 100 5)))
       PROTOCOL_VAULT_ADDRESS
  = mina demo_world PROTOCOL_VAULT_ADDRESS
    + (mina demo_world VAULT_ADDRESS - collateralAmount (vault demo_world)) * 10
      / PROTOCOL_FEE_PRECISION.
Proof.
  destruct (redeemCollateral_accounting (fun x => x) 10 2000000000 10 demo_world
              (result_world (transact demo_world
                 (redeemCollateral (fun x => x) 10 2000000000 10 demo_world 100 5)))
              100 5 ltac:(lit) ltac:(lit) ltac:(vm_compute; reflexivity))
    as (_ & _ & _ & Hp & _).
  exact Hp.
Defined.

Lemma depositCollateral_transfer_witness :
  (exists w', transact demo_world (depositCollateral (fun x => x) 10 demo_world 7 5)
              = Ok w')
  <-> 7 <= mina demo_world 10.
Proof.
  exact (proj1 (depositCollateral_transfer (fun x => x) 10 demo_world 7 5
                  ltac:(lit) ltac:(lia) eq_refl ltac:(lit))).
Defined.

Lemma debt_tracks_token_updates_witness :
  debtAmount (mkVault 1500000000 1000001000 5 true)
  = debtAmount (vault demo_world) + token_delta [TokenMint 10 1000].
Proof.
  destruct (debt_tracks_token_updates (fun x => x)) as (_ & _ & Hm & _).
  apply (Hm 2000000000 demo_world 10 1000 5). vm_compute. reflexivity.
Defined.

Lemma depositCollateral_compose_witness :
  exists w3, transact demo_world (depositCollateral (fun x => x) 10 demo_world (7 + 8) 5)
             = Ok w3
    /\ vault w3
       = vault (result_world (transact
           (result_world (transact demo_world
              (depositCollateral (fun x => x) 10 demo_world 7 5)))
           (depositCollateral (fun x => x) 10
              (result_world (transact demo_world
                 (depositCollateral (fun x => x) 10 demo_world 7 5))) 8 5)))
    /\ (forall x, mina w3 x
        = mina (result_world (transact
            (result_world (transact demo_world
               (depositCollateral (fun x => x) 10 demo_world 7 5)))
            (depositCollateral (fun x => x) 10
               (result_world (transact demo_world
                  (depositCollateral (fun x => x) 10 demo_world 7 5))) 8 5))) x).
Proof.
  apply (depositCollateral_compose (fun x => x) 10 demo_world
           (result_world (transact demo_world
              (depositCollateral (fun x => x) 10 demo_world 7 5)))
           (result_world (transact
              (result_world (transact demo_world
                 (depositCollateral (fun x => x) 10 demo_world 7 5)))
              (depositCollateral (fun x => x) 10
                 (result_world (transact demo_world
                    (depositCollateral (fun x => x) 10 demo_world 7 5))) 8 5)))
           7 8 5); [lit | vm_compute; reflexivity | vm_compute; reflexivity].
Defined.

Lemma mintZkUsd_then_burnZkUsd_witness :
  burnZkUsd (fun x => x) 10
    (result_world (transact demo_world
       (mintZkUsd (fun x => x) 2000000000 demo_world 10 1000 5))) 1000 5
  = Ok (set_flag (vault demo_world) false, [TokenBurn 10 1000]).
Proof.
  apply (mintZkUsd_then_burnZkUsd (fun x => x) 2000000000 demo_world
           (result_world (transact demo_world
              (mintZkUsd (fun x => x) 2000000000 demo_world 10 1000 5))) 10);
    [lit | vm_compute; reflexivity].
Defined.

Lemma liquidate_final_witness :
  liquidate 10 1000000000
    (result_world (transact demo_world (liquidate 10 1000000000 demo_world)))
  = Err HealthFactorTooHigh.
Proof.
  destruct (liquidate_final 10 1000000000 demo_world
              (result_world (transact demo_world (liquidate 10 1000000000 demo_world)))
              ltac:(vm_compute; reflexivity)) as (_ & _ & Hl).
  apply Hl.
Defined.

Lemma interactionFlag_one_shot_witness :
  interactionFlag (vault (result_world (transact demo_world
    (mintZkUsd (fun x => x) 2000000000 demo_world 10 1000 5)))) = false
  /\ assertInteractionFlag (result_world (transact demo_world
       (mintZkUsd (fun x => x) 2000000000 demo_world 10 1000 5)))
     = Err PreconditionFailed
  /\ (forall r a, apply_update (result_world (transact demo_world
         (mintZkUsd (fun x => x) 2000000000 demo_world 10 1000 5))) (TokenMint r a)
       = Err PreconditionFailed).
Proof.
  apply (interactionFlag_one_shot (fun x => x) 2000000000 demo_world
           (result_world (transact demo_world
              (mintZkUsd (fun x => x) 2000000000 demo_world 10 1000 5))) 10 1000 5).
  vm_compute. reflexivity.
Defined.

Lemma wrong_secret_rejected_witness :
  exists e, depositCollateral (fun x => x) 10 demo_world 7 6 = Err e.
Proof.
  destruct (wrong_secret_rejected (fun x => x) demo_world 6 ltac:(lit)) as (Hd & _).
  apply Hd.
Defined.

Lemma commitment_and_flag_kept_witness :
  ownershipHash (vault (result_world (transact demo_world
    (mintZkUsd (fun x => x) 2000000000 demo_world 10 1000 5))))
  = ownershipHash (vault demo_world)
  /\ interactionFlag (vault (result_world (transact demo_world
       (mintZkUsd (fun x => x) 2000000000 demo_world 10 1000 5)))) = false.
Proof.
  destruct (commitment_and_flag_kept (fun x => x)) as (_ & _ & Hm & _).
  apply (Hm 2000000000 demo_world 10 1000 5). vm_compute. reflexivity.
Defined.
